(** * json-os: term model, triple store and JSON-LD translator

    A shallow embedding of the [$rdf] shim, [createStore] and
    [parseJsonLdToStore] of [src/json-os.js], and the properties of the
    specification that concern them.

    JavaScript strings are modelled by [string] (sequences of code units),
    a JavaScript exception by the [TypeError] result, the store's array of
    triples by a list that [add] extends at its end, and the object that
    [findTypeURIs] fills by a [gmap] from keys to values. *)

From Stdlib Require Import ZArith Ascii String DecimalString.
From Stdlib Require DecimalNat.
From stdpp Require Import gmap strings list.

#[local] Set Warnings "-clear-no-such-hyp".

Open Scope string_scope.

(** ** String primitives of the host language *)

Module Js.

(** [s.startsWith(p)] *)
Fixpoint startsWith (p s : string) : bool :=
  match p, s with
  | EmptyString, _ => true
  | String a p', String b s' => if Ascii.eqb a b then startsWith p' s' else false
  | String _ _, EmptyString => false
  end.

(** Removes the first [n] code units. *)
Fixpoint skip (n : nat) (s : string) : string :=
  match n, s with
  | O, _ => s
  | S n', String _ s' => skip n' s'
  | S _, EmptyString => EmptyString
  end.

(** The first occurrence of [pat] in [s]: the text before it and the text
    after it, or [None] when [pat] does not occur. *)
Fixpoint search (pat s : string) : option (string * string) :=
  if startsWith pat s then Some ("", skip (String.length pat) s)
  else match s with
       | EmptyString => None
       | String c s' =>
           match search pat s' with
           | Some (before, after) => Some (String c before, after)
           | None => None
           end
       end.

(** GetSubstitution for a string pattern (no capture groups): [$$] is a
    dollar sign, [$&] the matched text, [$`] the text before the match and
    [$'] the text after it; every other character, a dollar sign followed
    by anything else included, stands for itself. *)
Fixpoint getSubstitution (matched before after repl : string) : string :=
  match repl with
  | EmptyString => EmptyString
  | String c rest =>
      if Ascii.eqb c "$"%char then
        match rest with
        | String d r =>
            if Ascii.eqb d "$"%char then String "$"%char (getSubstitution matched before after r)
            else if Ascii.eqb d "&"%char then matched +:+ getSubstitution matched before after r
            else if Ascii.eqb d "`"%char then before +:+ getSubstitution matched before after r
            else if Ascii.eqb d "'"%char then after +:+ getSubstitution matched before after r
            else String c (getSubstitution matched before after rest)
        | EmptyString => String c EmptyString
        end
      else String c (getSubstitution matched before after rest)
  end.

(** [s.replace(pat, repl)] with a string pattern: only the first occurrence
    is replaced, wherever it is. *)
Definition replace (pat repl s : string) : string :=
  match search pat s with
  | Some (before, after) => before +:+ getSubstitution pat before after repl +:+ after
  | None => s
  end.

(** [s.split(':').pop()]: the text after the last colon, the whole string
    when there is none. *)
Fixpoint lastSegment (s : string) : string :=
  match s with
  | EmptyString => EmptyString
  | String c s' =>
      if existsb (Ascii.eqb ":"%char) (list_ascii_of_string s') then lastSegment s'
      else if Ascii.eqb c ":"%char then s' else s
  end.

(** [String(i)] of an array index. *)
Definition ofIndex (i : nat) : string := NilEmpty.string_of_uint (Nat.to_uint i).

End Js.

(** ** JSON values *)

(** What the program observes of a number: whether it is zero (the only
    falsy numbers a JSON text can denote), its [String()] text and [===]. *)
Class JsNumber (num : Type) := {
  num_is_zero : num → bool;
  num_to_string : num → string;
  num_strict_eq : num → num → bool
}.

(** Integers printed in decimal are the numbers of the examples. *)
#[export] Instance Z_JsNumber : JsNumber Z := {
  num_is_zero z := Z.eqb z 0;
  num_to_string z := NilEmpty.string_of_int (Z.to_int z);
  num_strict_eq := Z.eqb
}.

#[local] Set Warnings "-register-all".

(** A parsed JSON value. The list of a [JObj] is [Object.entries] of the
    object: its own keys, each once, in property order. *)
Inductive json (num : Type) : Type :=
| JNull
| JBool (b : bool)
| JNum (n : num)
| JStr (s : string)
| JArr (items : list (json num))
| JObj (props : list (string * json num)).

Arguments JNull {num}.
Arguments JBool {num} b.
Arguments JNum {num} n.
Arguments JStr {num} s.
Arguments JArr {num} items.
Arguments JObj {num} props.

(** The outcome of a call: a value or an uncaught [TypeError]. *)
Inductive result (A : Type) : Type :=
| Ok (a : A)
| TypeError.

Arguments Ok {A} a.
Arguments TypeError {A}.

#[export] Instance result_bind : MBind result := λ A B k r,
  match r with
  | Ok a => k a
  | TypeError => TypeError
  end.

#[export] Instance result_fmap : FMap result := λ A B f r,
  match r with
  | Ok a => Ok (f a)
  | TypeError => TypeError
  end.

(** [arr.forEach(f)] where [f] threads the state and may throw. *)
Section ForEach.
Context {A St : Type}.

Fixpoint forEach (f : A → St → result St) (l : list A) (st : St) : result St :=
  match l with
  | [] => Ok st
  | x :: l' => st' ← f x st; forEach f l' st'
  end.

Fixpoint forEachi (f : nat → A → St → result St) (i : nat) (l : list A) (st : St)
  : result St :=
  match l with
  | [] => Ok st
  | x :: l' => st' ← f i x st; forEachi f (S i) l' st'
  end.
End ForEach.

(** ** Term model *)

Inductive termKind := NamedNode | Literal.

(** A term object. A [uri] field that is absent and one that holds
    [undefined] read alike and are both [None]. *)
Record term := Term {
  uri : option string;
  value : string;
  termType : termKind
}.

Definition RDF_TYPE : string := "http://www.w3.org/1999/02/22-rdf-syntax-ns#type".

Definition sym (uri : string) : term :=
  {| uri := Some uri; value := uri; termType := NamedNode |}.

Definition Namespace (base : string) (name : string) : term := sym (base +:+ name).

(** Values that are not objects. *)
Inductive prim (num : Type) : Type :=
| PUndefined
| PNull
| PBool (b : bool)
| PNum (n : num)
| PStr (s : string).

Arguments PUndefined {num}.
Arguments PNull {num}.
Arguments PBool {num} b.
Arguments PNum {num} n.
Arguments PStr {num} s.

(** What a triple holds in any of its three places and what a query passes:
    a term object or a primitive. *)
Inductive jsval (num : Type) : Type :=
| VTerm (t : term)
| VPrim (p : prim num).

Arguments VTerm {num} t.
Arguments VPrim {num} p.

Record triple (num : Type) := Triple {
  s : jsval num;
  p : jsval num;
  o : jsval num
}.

Arguments Triple {num} s p o.
Arguments s {num} t.
Arguments p {num} t.
Arguments o {num} t.

Section Store.
Context {num : Type} `{JsNumber num}.

(** [String(v)] of a primitive. *)
Definition String_ (v : prim num) : string :=
  match v with
  | PUndefined => "undefined"
  | PNull => "null"
  | PBool true => "true"
  | PBool false => "false"
  | PNum n => num_to_string n
  | PStr s => s
  end.

(** [literal(val)] for a [val] that is not an object. *)
Definition literal (val : prim num) : term :=
  {| uri := None; value := String_ val; termType := Literal |}.

(** Truthiness of a primitive. *)
Definition truthyPrim (v : prim num) : bool :=
  match v with
  | PUndefined | PNull => false
  | PBool b => b
  | PNum n => negb (num_is_zero n)
  | PStr s => negb (String.eqb s "")
  end.

(** [a === b] on primitives. *)
Definition strictEq (a b : prim num) : bool :=
  match a, b with
  | PUndefined, PUndefined => true
  | PNull, PNull => true
  | PBool x, PBool y => Bool.eqb x y
  | PNum x, PNum y => num_strict_eq x y
  | PStr x, PStr y => String.eqb x y
  | _, _ => false
  end.

(** The triples of a store, oldest first. *)
Definition store := list (triple num).

Definition createStore : store := [].

Definition normalizeStr (uri : string) : string :=
  Js.replace "https://schema.org/" "http://schema.org/" uri.

Definition normalize (uri : prim num) : prim num :=
  match uri with
  | PStr u => PStr (normalizeStr u)
  | _ => uri
  end.

(** [x.uri || x.value] of a term object. *)
Definition uriOrValue (x : term) : string :=
  match uri x with
  | Some u => if String.eqb u "" then value x else u
  | None => value x
  end.

(** The [uriA] and [uriB] of [matchUri]. *)
Definition uriOf (a : jsval num) : prim num :=
  match a with
  | VTerm x => PStr (uriOrValue x)
  | VPrim v => v
  end.

Definition matchUri (a b : jsval num) : bool :=
  strictEq (normalize (uriOf a)) (normalize (uriOf b)).

Definition add (st : store) (s p o : jsval num) : store :=
  (st ++ [Triple s p o])%list.

Definition matches (s p : jsval num) (t : triple num) : bool :=
  let 'Triple ts tp _ := t in matchUri ts s && matchUri tp p.

(** [t.o.value || t.o.uri || null] *)
Definition valueOrUri (x : term) : option string :=
  if negb (String.eqb (value x) "") then Some (value x)
  else match uri x with
       | Some u => if String.eqb u "" then None else Some u
       | None => None
       end.

(** What [anyValue] returns at a matching triple. *)
Definition objectText (o : jsval num) : option string :=
  match o with
  | VTerm x => valueOrUri x
  | VPrim PNull | VPrim PUndefined => None
  | VPrim v => Some (String_ v)
  end.

Fixpoint anyValue (st : store) (s p : jsval num) : option string :=
  match st with
  | [] => None
  | t :: st' => if matches s p t then objectText t.(o) else anyValue st' s p
  end.

(** The literal that [any] and [each] build around a primitive. *)
Definition wrap (v : prim num) : term :=
  {| uri := None; value := String_ v; termType := Literal |}.

Definition objectTerm (o : jsval num) : option term :=
  match o with
  | VTerm x => Some x
  | VPrim PNull | VPrim PUndefined => None
  | VPrim v => Some (wrap v)
  end.

Fixpoint any (st : store) (s p : jsval num) : option term :=
  match st with
  | [] => None
  | t :: st' => if matches s p t then objectTerm t.(o) else any st' s p
  end.

Fixpoint each (st : store) (s p : jsval num) : list term :=
  match st with
  | [] => []
  | t :: st' =>
      if matches s p t then
        match objectTerm t.(o) with
        | Some x => x :: each st' s p
        | None => each st' s p
        end
      else each st' s p
  end.

(** [obj[k] = v] on an object created by [{}]: assigning to [__proto__]
    reaches the setter of [Object.prototype], which ignores a value that
    is neither an object nor [null], so no own property appears. *)
Definition setProperty {V : Type} (k : string) (v : V) (obj : gmap string V)
  : gmap string V :=
  if String.eqb k "__proto__" then obj else <[k := v]> obj.

(** [normalize(t.p.uri || t.p) === RDF_TYPE]; reading [.uri] of [null] or
    [undefined] throws, and a term without a truthy [uri] is compared as
    the object it is. *)
Definition isRdfType (p : jsval num) : result bool :=
  match p with
  | VTerm x =>
      match uri x with
      | Some u => if String.eqb u "" then Ok false
                  else Ok (String.eqb (normalizeStr u) RDF_TYPE)
      | None => Ok false
      end
  | VPrim PNull | VPrim PUndefined => TypeError
  | VPrim v => Ok (strictEq (normalize v) (PStr RDF_TYPE))
  end.

(** [typeof t.o === 'object' ? t.o.uri : t.o]; [typeof null] is
    ['object'], so a [null] object is dereferenced. *)
Definition typeUriOf (o : jsval num) : result (prim num) :=
  match o with
  | VTerm x => Ok (match uri x with Some u => PStr u | None => PUndefined end)
  | VPrim PNull => TypeError
  | VPrim v => Ok v
  end.

(** The body of [if (uri) { ... }]: a truthy [uri] that is not a string
    has no [startsWith] method. *)
Definition recordType (uri : prim num) (acc : gmap string bool)
  : result (gmap string bool) :=
  if truthyPrim uri then
    let acc := setProperty (String_ uri) true acc in
    match uri with
    | PStr u =>
        if Js.startsWith "http://schema.org/" u then
          Ok (setProperty (Js.replace "http://" "https://" u) true acc)
        else if Js.startsWith "https://schema.org/" u then
          Ok (setProperty (Js.replace "https://" "http://" u) true acc)
        else Ok acc
    | _ => TypeError
    end
  else Ok acc.

Fixpoint findTypeURIs_loop (st : store) (s : jsval num) (acc : gmap string bool)
  : result (gmap string bool) :=
  match st with
  | [] => Ok acc
  | Triple ts tp to :: st' =>
      acc' ← (if matchUri ts s then
                isType ← isRdfType tp;
                if isType : bool then
                  uri ← typeUriOf to;
                  recordType uri acc
                else Ok acc
              else Ok acc);
      findTypeURIs_loop st' s acc'
  end.

Definition findTypeURIs (st : store) (s : jsval num) : result (gmap string bool) :=
  findTypeURIs_loop st s ∅.
End Store.

Arguments store num : clear implicits.
Arguments createStore {num}.

(** ** JSON-LD translator *)

Section Translator.
Context {num : Type} `{JsNumber num}.

(** Truthiness of a JSON value. *)
Definition truthy (v : json num) : bool :=
  match v with
  | JNull => false
  | JBool b => b
  | JNum n => negb (num_is_zero n)
  | JStr s => negb (String.eqb s "")
  | JArr _ | JObj _ => true
  end.

(** The value of an own property of an object. *)
Fixpoint lookupKey (k : string) (props : list (string * json num)) : option (json num) :=
  match props with
  | [] => None
  | (k', v) :: props' => if String.eqb k' k then Some v else lookupKey k props'
  end.

(** [v[k]] for a key [k] that starts with an at sign and a [v] that is not
    [null]: such a key is no index, no [length] and no inherited property,
    so only an object can have it; [None] is [undefined]. *)
Definition get (k : string) (v : json num) : option (json num) :=
  match v with
  | JObj props => lookupKey k props
  | _ => None
  end.

(** [if (v[k])], [!v[k]] *)
Definition truthyAt (k : string) (v : json num) : bool :=
  match get k v with
  | Some x => truthy x
  | None => false
  end.

(** The primitive a JSON value is, or [None] when
    [typeof v === 'object' && v !== null]. *)
Definition asPrim (v : json num) : option (prim num) :=
  match v with
  | JNull => Some PNull
  | JBool b => Some (PBool b)
  | JNum n => Some (PNum n)
  | JStr s => Some (PStr s)
  | JArr _ | JObj _ => None
  end.

(** The string a JSON value turns into when it is appended to a string.
    An array joins its elements with commas, [null] elements being empty;
    an object falls back on [Object.prototype.toString] unless a key
    [toString] of its own hides it, and then the conversion throws. *)
Fixpoint toString (v : json num) : result string :=
  match v with
  | JNull => Ok "null"
  | JBool true => Ok "true"
  | JBool false => Ok "false"
  | JNum n => Ok (num_to_string n)
  | JStr s => Ok s
  | JArr items =>
      (fix join (l : list (json num)) : result string :=
         match l with
         | [] => Ok ""
         | x :: l' =>
             sx ← match x with JNull => Ok "" | _ => toString x end;
             match l' with
             | [] => Ok sx
             | _ :: _ => r ← join l'; Ok (sx +:+ "," +:+ r)
             end
         end) items
  | JObj props =>
      match lookupKey "toString" props with
      | Some _ => TypeError
      | None => Ok "[object Object]"
      end
  end.

(** [ctx[k] = v]: the value of an existing key is replaced where it
    stands, a new key goes last, and [__proto__] is not stored (see
    [setProperty]). *)
Fixpoint assign (k v : string) (ctx : list (string * string)) : list (string * string) :=
  match ctx with
  | [] => [(k, v)]
  | (k', v') :: ctx' =>
      if String.eqb k' k then (k, v) :: ctx' else (k', v') :: assign k v ctx'
  end.

Definition setContext (k v : string) (ctx : list (string * string)) :=
  if String.eqb k "__proto__" then ctx else assign k v ctx.

(** The loop of [resolvePrefix] over [Object.entries(context)]. *)
Fixpoint expandPrefix (key : string) (context : list (string * string)) : option string :=
  match context with
  | [] => None
  | (prefix, base) :: context' =>
      if Js.startsWith (prefix +:+ ":") key
      then Some (Js.replace (prefix +:+ ":") base key)
      else expandPrefix key context'
  end.

(** [resolvePrefix(key, context)] for a string [key]; [None] is [null]. *)
Definition resolvePrefix (key : string) (context : list (string * string)) : option string :=
  if Js.startsWith "@" key then None
  else match expandPrefix key context with
       | Some r => Some r
       | None =>
           if Js.startsWith "http://" key || Js.startsWith "https://" key then Some key
           else Some key
       end.

(** The context map built from [jsonld['@context']]. *)
Definition buildContext (jsonld : json num) : list (string * string) :=
  match get "@context" jsonld with
  | Some raw =>
      if truthy raw then
        match raw with
        | JObj entries =>
            fold_left (λ ctx '(k, v),
                         match v with
                         | JStr b => setContext k b ctx
                         | _ => ctx
                         end) entries []
        | _ => []
        end
      else []
  | None => []
  end.

Section AddTriples.
(** The variables [ctx] and [baseUri] that [addTriples] closes over. *)
Variable ctx : list (string * string).
Variable baseUri : string.

(** [x.startsWith('http') ? x : baseUri + x] for [x = node['@id']],
    known to be truthy; only a string has a [startsWith] method. *)
Definition resolveId (node : json num) : result string :=
  match get "@id" node with
  | Some (JStr x) => Ok (if Js.startsWith "http" x then x else baseUri +:+ x)
  | _ => TypeError
  end.

(** Lines 161 to 164: the [@type] of a node. *)
Definition addType (node : json num) (subject : term) (st : store num) 
  : result (store num) :=
  match get "@type" node with
  | Some ty =>
      if truthy ty then
        match ty with
        | JStr t =>
            let typeUri :=
              match resolvePrefix t ctx with
              | Some r => if String.eqb r "" then t else r
              | None => t
              end in
            Ok (add st (VTerm subject) (VTerm (sym RDF_TYPE)) (VTerm (sym typeUri)))
        | _ => TypeError
        end
      else Ok st
  | None => Ok st
  end.

(** The callback of [val.forEach((item, i) => ...)]. *)
Definition addItem (rec : json num → string → store num → result (store num))
    (subjectUri : string) (pred : term) (key : string)
    (i : nat) (item : json num) (st : store num) 
  : result (store num) :=
  let subject := sym subjectUri in
  match asPrim item with
  | None =>
      if negb (truthyAt "@id" item) then
        let blankId := subjectUri +:+ "_" +:+ Js.lastSegment key +:+ "_" +:+ Js.ofIndex i in
        rec item blankId (add st (VTerm subject) (VTerm pred) (VTerm (sym blankId)))
      else
        uri ← resolveId item;
        Ok (add st (VTerm subject) (VTerm pred) (VTerm (sym uri)))
  | Some v => Ok (add st (VTerm subject) (VTerm pred) (VPrim v))
  end.

(** The callback of [Object.entries(node).forEach(([key, val]) => ...)]. *)
Definition addEntry (rec : json num → string → store num → result (store num))
    (subjectUri : string) (key : string) (val : json num) (st : store num)
  
  : result (store num) :=
  let subject := sym subjectUri in
  if Js.startsWith "@" key then Ok st
  else match resolvePrefix key ctx with
       | None => Ok st
       | Some predUri =>
           if String.eqb predUri "" then Ok st
           else
             let pred := sym predUri in
             match val with
             | JArr items => forEachi (addItem rec subjectUri pred key) 0 items st
             | _ =>
                 match asPrim val with
                 | None =>
                     if truthyAt "@id" val then
                       uri ← resolveId val;
                       Ok (add st (VTerm subject) (VTerm pred) (VTerm (sym uri)))
                     else
                       let blankId := subjectUri +:+ "_" +:+ Js.lastSegment key in
                       rec val blankId
                         (add st (VTerm subject) (VTerm pred) (VTerm (sym blankId)))
                 | Some v => Ok (add st (VTerm subject) (VTerm pred) (VPrim v))
                 end
             end
       end.

(** The code units of a string, as [Object.entries] lists them. *)
Fixpoint units (s : string) : list (json num) :=
  match s with
  | EmptyString => []
  | String c s' => JStr (String c EmptyString) :: units s'
  end.

(** [addTriples(node, subjectUri)] for a [node] that is not [null]. The
    entries of an array are its elements under their indices, those of
    a string its code units, and a number or a boolean has none. *)
Fixpoint addTriples (node : json num) (subjectUri : string) (st : store num)
  
  : result (store num) :=
  st1 ← addType node (sym subjectUri) st;
  match node with
  | JObj props =>
      forEach (λ '(key, val), addEntry addTriples subjectUri key val) props st1
  | JArr items =>
      forEachi (λ i val, addEntry addTriples subjectUri (Js.ofIndex i) val) 0 items st1
  | JStr s =>
      forEachi (λ i val, addEntry (λ _ _ st, Ok st) subjectUri (Js.ofIndex i) val)
        0 (units s) st1
  | JNull | JBool _ | JNum _ => Ok st1
  end.
End AddTriples.

(** The number of constructors of a JSON value, the measure of the
    inductions on documents. *)
Fixpoint size (v : json num) : nat :=
  match v with
  | JArr items => S (list_sum (map size items))
  | JObj props => S (list_sum (map (λ kv, size kv.2) props))
  | _ => 1
  end.

(** [baseUri + (jsonld['@id'] || '#thing')] *)
Definition rootIdOf (jsonld : json num) (baseUri : string) : result string :=
  match get "@id" jsonld with
  | Some v => if truthy v then t ← toString v; Ok (baseUri +:+ t)
              else Ok (baseUri +:+ "#thing")
  | None => Ok (baseUri +:+ "#thing")
  end.

(** [parseJsonLdToStore(jsonld, baseUri, store)]: the root subject and the
    store as the call leaves it. Reading [jsonld['@context']] throws when
    [jsonld] is [null]. *)
Definition parseJsonLdToStore (jsonld : json num) (baseUri : string) (st : store num)
  : result (term * store num) :=
  match jsonld with
  | JNull => TypeError
  | _ =>
      let ctx := buildContext jsonld in
      rootId ← rootIdOf jsonld baseUri;
      st' ← addTriples ctx baseUri jsonld rootId st;
      Ok (sym rootId, st')
  end.
End Translator.

(** ** Vocabulary of the properties *)

(** A command that leaves the store it is given in place and appends the
    triples it would emit on the empty store. *)
Definition appends {num : Type} (f : store num → result (store num)) : Prop :=
  ∀ st, f st = (λ out, st ++ out)%list <$> f [].





(** The URI that [findTypeURIs] reads off the object of a triple, when the
    object is a term or a string. *)
Definition objectUri {num : Type} (o : jsval num) : option string :=
  match o with
  | VTerm x => uri x
  | VPrim (PStr u) => Some u
  | VPrim _ => None
  end.

(** A triple that [findTypeURIs(subject)] counts as giving the type [u]. *)
Definition givesType {num : Type} `{JsNumber num}
    (subject : jsval num) (t : triple num) (u : string) : Prop :=
  matchUri t.(s) subject = true ∧ isRdfType t.(p) = Ok true
  ∧ objectUri t.(o) = Some u ∧ u ≠ "".

(** The keys that [findTypeURIs] sets for the type URI [u]: [u] itself and,
    for a URI under [schema.org], the same URI under the other scheme. *)
Definition recorded (u k : string) : Prop :=
  k = u
  ∨ (∃ X, u = "http://schema.org/" +:+ X ∧ k = "https://schema.org/" +:+ X)
  ∨ (∃ X, u = "https://schema.org/" +:+ X ∧ k = "http://schema.org/" +:+ X).

(** Triples that [findTypeURIs(subject)] can read: where the subject matches, the
    predicate is neither [null] nor [undefined], and where the predicate is
    then rdf:type the object is a term, a string or a falsy primitive other
    than [null]. *)
Definition readableType {num : Type} `{JsNumber num}
    (subject : jsval num) (t : triple num) : Prop :=
  matchUri t.(s) subject = true →
  (t.(p) ≠ VPrim PNull ∧ t.(p) ≠ VPrim PUndefined)
  ∧ (isRdfType t.(p) = Ok true →
     (∃ x, t.(o) = VTerm x) ∨ (∃ u, t.(o) = VPrim (PStr u))
     ∨ (∃ v, t.(o) = VPrim v ∧ v ≠ PNull ∧ truthyPrim v = false)).

(** A command that appends to the store only triples that satisfy [Q]. *)
Definition emits {num : Type} (Q : triple num → Prop)
    (f : store num → result (store num)) : Prop :=
  appends f ∧ ∀ out, f [] = Ok out → Forall Q out.

(** A triple whose subject is a blank node synthesized under [subjectUri]. *)
Definition below {num : Type} (subjectUri : string) (t : triple num) : Prop :=
  ∃ z, t.(s) = VTerm (sym (subjectUri +:+ "_" +:+ z)).

(** The triples of a node: those about the node itself and those about
    the blank nodes under it. *)
Definition ownOrBelow {num : Type} (subjectUri : string) (t : triple num) : Prop :=
  t.(s) = VTerm (sym subjectUri) ∨ below subjectUri t.

(** The triples of a property: those that link the node through the
    resolved predicate and those about the blank nodes under the node. *)
Definition linkOrBelow {num : Type} (ctx : list (string * string))
    (subjectUri key : string) (t : triple num) : Prop :=
  (t.(s) = VTerm (sym subjectUri)
   ∧ ∃ predUri, resolvePrefix key ctx = Some predUri ∧ predUri ≠ ""
                ∧ t.(p) = VTerm (sym predUri))
  ∨ below subjectUri t.

(** What [each] returns for the object of a matching triple: a term as it
    is, a raw scalar as a Literal, and nothing for [null] and [undefined]. *)
Definition returned {num : Type} `{JsNumber num} (o : jsval num) : option term :=
  match o with
  | VTerm x => Some x
  | VPrim PNull | VPrim PUndefined => None
  | VPrim v => Some (literal v)
  end.

(** A subject or predicate as the callers pass it: a term object or the
    string of a URI. *)
Definition termOrString {num : Type} (a : jsval num) : Prop :=
  (∃ x, a = VTerm x) ∨ (∃ u, a = VPrim (PStr u)).

(** [resolvePrefix(node['@type'], ctx) || node['@type']] of line 162, for a
    string [@type]. *)
Definition resolveType (t : string) (ctx : list (string * string)) : string :=
  match resolvePrefix t ctx with
  | Some r => if String.eqb r "" then t else r
  | None => t
  end.

(** Whether the code unit [c] occurs in [x]. *)
Definition contains (c : ascii) (x : string) : bool :=
  existsb (Ascii.eqb c) (list_ascii_of_string x).

(** The entry of the context map that an entry of ["@context"] gives. *)
Definition contextEntry {num : Type} (kv : string * json num) : option (string * string) :=
  match kv.2 with
  | JStr base => if String.eqb kv.1 "__proto__" then None else Some (kv.1, base)
  | _ => None
  end.

(** The shape of every triple that the translator stores: subject and
    predicate are named nodes, the predicate is not empty, and the object
    is a named node with a non-empty URI or a primitive of the document. *)
Definition translated {num : Type} (t : triple num) : Prop :=
  (∃ su, t.(s) = VTerm (sym su))
  ∧ (∃ pu, t.(p) = VTerm (sym pu) ∧ pu ≠ "")
  ∧ ((∃ u, t.(o) = VTerm (sym u) ∧ u ≠ "")
     ∨ (∃ v, t.(o) = VPrim v ∧ v ≠ PUndefined)).

(** * Properties *)

(** ** Strings *)

Module JsFacts.

Lemma append_cons (x : ascii) (a b : string) : String x a +:+ b = String x (a +:+ b).
Proof. reflexivity. Qed.

Lemma append_nil_l (a : string) : "" +:+ a = a.
Proof. reflexivity. Qed.

Lemma append_assoc (a b c : string) : (a +:+ b) +:+ c = a +:+ (b +:+ c).
Proof. induction a as [|x a IH]; [done | by rewrite !append_cons, IH]. Qed.

Lemma append_nil_r (a : string) : a +:+ "" = a.
Proof. induction a as [|x a IH]; [done | by rewrite append_cons, IH]. Qed.

Lemma length_append (a b : string) :
  String.length (a +:+ b) = String.length a + String.length b.
Proof. induction a as [|x a IH]; [done | rewrite append_cons; simpl; by rewrite IH]. Qed.

Lemma append_inv_head (a b c : string) : a +:+ b = a +:+ c → b = c.
Proof. induction a as [|x a IH]; [done | rewrite !append_cons; intros [= E]; auto]. Qed.

Lemma startsWith_append (p r : string) : Js.startsWith p (p +:+ r) = true.
Proof.
  induction p as [|x p IH]; [done|].
  rewrite append_cons; simpl. by rewrite Ascii.eqb_refl.
Qed.

Lemma startsWith_inv (p s : string) :
  Js.startsWith p s = true → ∃ r, s = p +:+ r.
Proof.
  revert s; induction p as [|x p IH]; intros s; simpl.
  - by exists s.
  - destruct s as [|y s]; [done|].
    destruct (Ascii.eqb x y) eqn:E; [|done].
    apply Ascii.eqb_eq in E as ->. intros [r ->]%IH. by exists r.
Qed.

Lemma skip_append (p r : string) : Js.skip (String.length p) (p +:+ r) = r.
Proof. induction p as [|x p IH]; [by destruct r | by rewrite append_cons]. Qed.

Lemma search_unfold (pat s : string) :
  Js.search pat s =
    if Js.startsWith pat s then Some ("", Js.skip (String.length pat) s)
    else match s with
         | EmptyString => None
         | String c s' =>
             match Js.search pat s' with
             | Some (before, after) => Some (String c before, after)
             | None => None
             end
         end.
Proof. by destruct s. Qed.

Lemma search_head (pat r : string) : Js.search pat (pat +:+ r) = Some ("", r).
Proof. by rewrite search_unfold, startsWith_append, skip_append. Qed.

(** Where [search] finds the pattern, the string is the text before, the
    pattern and the text after. *)
Lemma search_sound (pat s before after : string) :
  Js.search pat s = Some (before, after) → s = before +:+ pat +:+ after.
Proof.
  revert before after; induction s as [|c s IH]; intros before after;
    rewrite search_unfold.
  - destruct (Js.startsWith pat "") eqn:E; [|done].
    intros [= <- <-]. apply startsWith_inv in E as [r E].
    destruct pat; [done | by rewrite append_cons in E].
  - destruct (Js.startsWith pat (String c s)) eqn:E.
    + intros [= <- <-]. apply startsWith_inv in E as [r E].
      rewrite E, skip_append. done.
    + destruct (Js.search pat s) as [[b a]|] eqn:Es; [|done].
      intros [= <- <-]. rewrite append_cons. f_equal. by apply IH.
Qed.

Lemma startsWith_app_l (p s t : string) :
  Js.startsWith p s = true → Js.startsWith p (s +:+ t) = true.
Proof.
  intros [r ->]%startsWith_inv. rewrite append_assoc. apply startsWith_append.
Qed.

Lemma startsWith_app_inv (p s t : string) :
  Js.startsWith p (s +:+ t) = true → (String.length p ≤ String.length s)%nat →
  Js.startsWith p s = true.
Proof.
  revert s; induction p as [|x p IH]; intros s; [done|].
  destruct s as [|y s]; [simpl; lia|]. rewrite append_cons.
  cbn [Js.startsWith String.length].
  destruct (Ascii.eqb x y); [|done]. intros Hp Hlen. apply IH; [done | lia].
Qed.

Lemma search_length (pat s before after : string) :
  Js.search pat s = Some (before, after) →
  String.length s = String.length before + String.length pat + String.length after.
Proof.
  intros ->%search_sound. rewrite !length_append. lia.
Qed.

(** The first occurrence of a pattern stays the first when text is
    appended. *)
Lemma search_app (pat s t before after : string) :
  Js.search pat s = Some (before, after) →
  Js.search pat (s +:+ t) = Some (before, after +:+ t).
Proof.
  revert before; induction s as [|c s IH]; intros before; rewrite search_unfold.
  - destruct (Js.startsWith pat "") eqn:E; [|done].
    apply startsWith_inv in E as [r E]. destruct pat; [|by rewrite append_cons in E].
    intros [= <- <-]. by destruct t.
  - destruct (Js.startsWith pat (String c s)) eqn:E.
    + intros [= <- <-]. apply startsWith_inv in E as [r E]. rewrite E.
      by rewrite skip_append, append_assoc, search_head.
    + destruct (Js.search pat s) as [[b a]|] eqn:Es; [|done].
      intros [= <- <-]. rewrite append_cons, search_unfold.
      destruct (Js.startsWith pat (String c (s +:+ t))) eqn:E'.
      * rewrite <- append_cons in E'. apply startsWith_app_inv in E'; [congruence|].
        apply search_length in Es. simpl. lia.
      * by rewrite (IH b eq_refl).
Qed.

End JsFacts.

(** ** URI comparison *)

Section MatchFacts.
Context {num : Type} `{JsNumber num}.

Lemma uriOrValue_sym (u : string) : uriOrValue (sym u) = u.
Proof.
  unfold uriOrValue; simpl. destruct (String.eqb u "") eqn:E; [|done].
  by apply String.eqb_eq in E.
Qed.

Lemma matchUri_terms (x y : term) :
  matchUri (num:=num) (VTerm x) (VTerm y)
  = String.eqb (normalizeStr (uriOrValue x)) (normalizeStr (uriOrValue y)).
Proof. reflexivity. Qed.

Lemma matchUri_sym_sym (u v : string) :
  matchUri (num:=num) (VTerm (sym u)) (VTerm (sym v))
  = String.eqb (normalizeStr u) (normalizeStr v).
Proof. by rewrite matchUri_terms, !uriOrValue_sym. Qed.

Lemma matchUri_sym_refl (u : string) :
  matchUri (num:=num) (VTerm (sym u)) (VTerm (sym u)) = true.
Proof. rewrite matchUri_sym_sym. apply String.eqb_refl. Qed.

(** A string that starts with the https form of the namespace is
    normalised to the http form, the rest untouched. *)
Lemma normalizeStr_https (x : string) :
  normalizeStr ("https://schema.org/" +:+ x) = "http://schema.org/" +:+ x.
Proof. unfold normalizeStr, Js.replace. by rewrite JsFacts.search_head. Qed.
End MatchFacts.

(** ** C10: [findTypeURIs] dereferences a null object *)

(** C10. [findTypeURIs] is not total over the stores the translator
    produces: the document that maps the absolute rdf:type URI to [null] is
    translated without error into a store whose single triple has the
    rdf:type predicate and a [null] object, and [findTypeURIs] of the root
    subject then throws a TypeError instead of returning a mapping. This
    holds for every base URI. *)
Theorem findTypeURIs_null_object_raises {num : Type} `{JsNumber num} (baseUri : string) :
  ∃ (root : term) (st : store num),
    parseJsonLdToStore (JObj [(RDF_TYPE, JNull)]) baseUri createStore = Ok (root, st)
    ∧ st = [Triple (VTerm root) (VTerm (sym RDF_TYPE)) (VPrim PNull)]
    ∧ findTypeURIs st (VTerm root) = TypeError.
Proof.
  exists (sym (baseUri +:+ "#thing")).
  exists [Triple (VTerm (sym (baseUri +:+ "#thing"))) (VTerm (sym RDF_TYPE)) (VPrim PNull)].
  split; [reflexivity|]. split; [reflexivity|].
  unfold findTypeURIs; simpl. by rewrite matchUri_sym_refl.
Qed.

(** ** C2: [anyValue] *)

Section AnyValue.
Context {num : Type} `{JsNumber num}.

Lemma anyValue_no_match (st : store num) (s p : jsval num) :
  Forall (λ t, matches s p t = false) st → anyValue st s p = None.
Proof.
  induction 1 as [|t st Ht _ IH]; simpl; [done|]. by rewrite Ht.
Qed.

Lemma anyValue_first (pre post : store num) (t : triple num) (s p : jsval num) :
  Forall (λ t', matches s p t' = false) pre →
  matches s p t = true →
  anyValue (pre ++ t :: post)%list s p = objectText (o t).
Proof.
  induction 1 as [|t' pre Ht' _ IH]; simpl; intros Ht.
  - by rewrite Ht.
  - rewrite Ht'. by apply IH.
Qed.
End AnyValue.

(** C2, as the code has it. [anyValue(s, p)] is decided by the first triple,
    in insertion order, whose subject and predicate match. It returns [null]
    when no triple matches and also when the object of that first triple is
    [null] or [undefined]. Otherwise it returns the text of that object: the
    [value] of a term whose [value] is not empty (the text of a Literal, the
    URI of a NamedNode), the [uri] of a term whose [value] is empty and whose
    [uri] is not, and [String(o)] of any other raw scalar, the empty string
    included. *)
Theorem anyValue_first_match {num : Type} `{JsNumber num}
    (st : store num) (s p : jsval num) :
  (Forall (λ t, matches s p t = false) st → anyValue st s p = None)
  ∧ (∀ pre t post,
       st = (pre ++ t :: post)%list →
       Forall (λ t', matches s p t' = false) pre →
       matches s p t = true →
       (∀ x, o t = VTerm x → value x ≠ "" → anyValue st s p = Some (value x))
       ∧ (∀ u, o t = VTerm (sym u) → u ≠ "" → anyValue st s p = Some u)
       ∧ (∀ v, o t = VTerm (literal v) → String_ v ≠ "" →
            anyValue st s p = Some (String_ v))
       ∧ (∀ x u, o t = VTerm x → value x = "" → uri x = Some u → u ≠ "" →
            anyValue st s p = Some u)
       ∧ (∀ v, o t = VPrim v → v ≠ PNull → v ≠ PUndefined →
            anyValue st s p = Some (String_ v))
       ∧ (o t = VPrim PNull ∨ o t = VPrim PUndefined → anyValue st s p = None)).
Proof.
  split; [apply anyValue_no_match|].
  intros pre t post -> Hpre Ht. rewrite (anyValue_first _ _ _ _ _ Hpre Ht).
  assert (Hval : ∀ x, value x ≠ "" → valueOrUri x = Some (value x)).
  { intros x Hx. unfold valueOrUri.
    destruct (String.eqb (value x) "") eqn:E; [|done].
    by apply String.eqb_eq in E. }
  repeat split.
  - intros x -> Hx. by apply Hval.
  - intros u -> Hu. by apply (Hval (sym u)).
  - intros v -> Hv. by apply (Hval (literal v)).
  - intros x u -> Hx Hu Hne. simpl. unfold valueOrUri. rewrite Hx, Hu. simpl.
    destruct (String.eqb u "") eqn:E; [|done]. by apply String.eqb_eq in E.
  - intros v -> Hn Hu. by destruct v as [| |[]| |].
  - by intros [-> | ->].
Qed.

(** The theorem at the store of the document [{"name": "Ada", "name2":
    null}]: the first query finds the raw string, the second a [null]. *)
Lemma anyValue_first_match_witness :
  let root := VTerm (sym "http://b/#thing") in
  let st : store Z :=
    [Triple root (VTerm (sym "name")) (VPrim (PStr "Ada"));
     Triple root (VTerm (sym "name2")) (VPrim PNull)] in
  anyValue st root (VTerm (sym "name")) = Some "Ada"
  ∧ anyValue st root (VTerm (sym "name2")) = None.
Proof.
  intros root st. split.
  - refine (proj1 (proj2 (proj2 (proj2 (proj2
      (proj2 (anyValue_first_match st root (VTerm (sym "name"))) [] _ _ eq_refl _ _)))))
      (PStr "Ada") eq_refl _ _); [constructor | reflexivity | discriminate | discriminate].
  - refine (proj2 (proj2 (proj2 (proj2 (proj2
      (proj2 (anyValue_first_match st root (VTerm (sym "name2"))) [_] _ [] eq_refl _ _)))))
      (or_introl eq_refl)); [repeat constructor | reflexivity].
Defined.

(** The claim as the specification words it fails on the store that the
    translator builds from [{"k": null}]: one triple matches the query and
    [anyValue] returns [null] all the same. It also fails for a Literal
    whose text is the empty string: [anyValue] returns [null], not that
    text. *)
Lemma anyValue_null_object :
  let root := sym "http://b/#thing" in
  let st : store Z := [Triple (VTerm root) (VTerm (sym "k")) (VPrim PNull)] in
  let st2 : store Z :=
    add createStore (VTerm root) (VTerm (sym "k")) (VTerm (literal (PStr ""))) in
  parseJsonLdToStore (JObj [("k", JNull)]) "http://b/" createStore = Ok (root, st)
  ∧ ¬ (anyValue st (VTerm root) (VTerm (sym "k")) = None
       ↔ Forall (λ t, matches (VTerm root) (VTerm (sym "k")) t = false) st)
  ∧ anyValue st2 (VTerm root) (VTerm (sym "k")) = None
  ∧ anyValue st2 (VTerm root) (VTerm (sym "k")) ≠ Some (value (literal (num:=Z) (PStr ""))).
Proof.
  intros root st st2. split; [reflexivity|]. split; [|split; [reflexivity | discriminate]].
  intros [Hnone _]. specialize (Hnone eq_refl).
  apply Forall_inv in Hnone. vm_compute in Hnone. discriminate.
Qed.

(** ** C3: the root subject *)

Section Root.
Context {num : Type} `{JsNumber num}.

Lemma parseJsonLdToStore_root (D : json num) (B : string) (st : store num)
    (root : term) (st' : store num) :
  parseJsonLdToStore D B st = Ok (root, st') →
  ∃ rootId, rootIdOf D B = Ok rootId ∧ root = sym rootId
            ∧ addTriples (buildContext D) B D rootId st = Ok st'.
Proof.
  unfold parseJsonLdToStore.
  assert (Hgen : (rootId ← rootIdOf D B;
                  st'0 ← addTriples (buildContext D) B D rootId st;
                  Ok (sym rootId, st'0)) = Ok (root, st') →
                 ∃ rootId, rootIdOf D B = Ok rootId ∧ root = sym rootId
                   ∧ addTriples (buildContext D) B D rootId st = Ok st').
  { destruct (rootIdOf D B) as [rootId|]; [|done]. simpl.
    destruct (addTriples _ _ _ _ _) as [st2|] eqn:E; [|done].
    simpl. intros [= <- <-]. by exists rootId. }
  destruct D; try done; apply Hgen.
Qed.
End Root.

(** C3, as the code has it. The root subject that the translator returns
    has the URI [B + (D["@id"] || "#thing")]: the ["#thing"] fragment is
    used when [D] has no ["@id"] key and also when the value of ["@id"] is
    falsy (the empty string, zero, [false], [null]); a non-empty string
    ["@id"] is appended to [B] as it is, and any other truthy value as the
    string it converts to. *)
Theorem root_subject_uri {num : Type} `{JsNumber num}
    (D : json num) (B : string) (st : store num) (root : term) (st' : store num) :
  parseJsonLdToStore D B st = Ok (root, st') →
  (get "@id" D = None → root = sym (B +:+ "#thing"))
  ∧ (∀ v, get "@id" D = Some v → truthy v = false → root = sym (B +:+ "#thing"))
  ∧ (∀ x, get "@id" D = Some (JStr x) → x ≠ "" → root = sym (B +:+ x))
  ∧ (∀ v, get "@id" D = Some v → truthy v = true →
       ∃ t, toString v = Ok t ∧ root = sym (B +:+ t)).
Proof.
  intros (rootId & Hid & -> & _)%parseJsonLdToStore_root.
  unfold rootIdOf in Hid. repeat split.
  - intros E. rewrite E in Hid. by injection Hid as <-.
  - intros v E Hv. rewrite E, Hv in Hid. by injection Hid as <-.
  - intros x E Hx. rewrite E in Hid. simpl in Hid.
    destruct (String.eqb x "") eqn:Ex; [by apply String.eqb_eq in Ex|].
    simpl in Hid. by injection Hid as <-.
  - intros v E Hv. rewrite E, Hv in Hid.
    destruct (toString v) as [t|]; [|done]. simpl in Hid.
    injection Hid as <-. by exists t.
Qed.

(** The theorem at [{"@id": "#me", "name": "Ada"}] and at [{"name": "Ada"}]. *)
Lemma root_subject_uri_witness :
  sym "http://b/#me" = sym ("http://b/" +:+ "#me")
  ∧ sym "http://b/#thing" = sym ("http://b/" +:+ "#thing").
Proof.
  split.
  - refine (proj1 (proj2 (proj2
      (root_subject_uri (num:=Z) (JObj [("@id", JStr "#me"); ("name", JStr "Ada")])
         "http://b/" createStore (sym "http://b/#me")
         [Triple (VTerm (sym "http://b/#me")) (VTerm (sym "name")) (VPrim (PStr "Ada"))]
         eq_refl))) "#me" eq_refl _).
    discriminate.
  - exact (proj1
      (root_subject_uri (num:=Z) (JObj [("name", JStr "Ada")])
         "http://b/" createStore (sym "http://b/#thing")
         [Triple (VTerm (sym "http://b/#thing")) (VTerm (sym "name")) (VPrim (PStr "Ada"))]
         eq_refl) eq_refl).
Defined.

(** The claim as the specification words it fails at [{"@id": ""}]: the
    key is there, and the root is [B + "#thing"], not [B + ""]. *)
Lemma root_subject_empty_id :
  get (num:=Z) "@id" (JObj [("@id", JStr "")]) = Some (JStr "")
  ∧ parseJsonLdToStore (num:=Z) (JObj [("@id", JStr "")]) "http://b/" createStore
    = Ok (sym "http://b/#thing", [])
  ∧ sym "http://b/#thing" ≠ sym ("http://b/" +:+ "").
Proof. repeat split; discriminate. Qed.

(** ** The translator appends to the store *)

Section Append.
Context {num : Type} `{JsNumber num}.

Lemma appends_skip : appends (num:=num) (λ st, Ok st).
Proof. intros st. simpl. by rewrite app_nil_r. Qed.

Lemma appends_add (s p o : jsval num) : appends (λ st, Ok (add st s p o)).
Proof. by intros st. Qed.

Lemma appends_throw : appends (num:=num) (λ _, TypeError).
Proof. by intros st. Qed.

Lemma appends_ext (f g : store num → result (store num)) :
  (∀ st, f st = g st) → appends g → appends f.
Proof. intros E Hg st. by rewrite !E. Qed.

Lemma appends_bind (f g : store num → result (store num)) :
  appends f → appends g → appends (λ st, st1 ← f st; g st1).
Proof.
  intros Hf Hg st. rewrite (Hf st). destruct (f []) as [out|]; simpl; [|done].
  rewrite (Hg (st ++ out)%list), (Hg out).
  destruct (g []) as [out'|]; simpl; [|done]. by rewrite app_assoc.
Qed.

Lemma appends_after_add (s p o : jsval num) (g : store num → result (store num)) :
  appends g → appends (λ st, g (add st s p o)).
Proof.
  intros Hg. apply (appends_bind (λ st, Ok (add st s p o)) g); [|done].
  apply appends_add.
Qed.

Lemma appends_forEach {A : Type} (f : A → store num → result (store num)) (l : list A) :
  Forall (λ x, appends (f x)) l → appends (forEach f l).
Proof.
  induction 1 as [|x l Hx _ IH]; simpl; [apply appends_skip|].
  by apply (appends_bind (f x) (forEach f l)).
Qed.

Lemma appends_forEachi {A : Type} (f : nat → A → store num → result (store num))
    (l : list A) (i : nat) :
  Forall (λ x, ∀ j, appends (f j x)) l → appends (forEachi f i l).
Proof.
  intros Hl; revert i. induction Hl as [|x l Hx _ IH]; intros i; simpl;
    [apply appends_skip|].
  by apply (appends_bind (f i x) (forEachi f (S i) l)).
Qed.

Lemma size_item (item : json num) (items : list (json num)) :
  item ∈ items → size item < size (JArr items).
Proof.
  simpl. induction 1 as [x l|x y l _ IH]; simpl; lia.
Qed.

Lemma size_prop (k : string) (v : json num) (props : list (string * json num)) :
  (k, v) ∈ props → size v < size (JObj props).
Proof.
  simpl. remember (k, v) as kv eqn:E.
  induction 1 as [x l|x y l _ IH]; subst; simpl; [lia|].
  specialize (IH eq_refl). lia.
Qed.

(** Induction on the size of a document. *)
Lemma json_size_ind (P : json num → Prop) :
  (∀ v, (∀ w, size w < size v → P w) → P v) → ∀ v, P v.
Proof.
  intros Hstep v. remember (size v) as n eqn:En.
  revert v En. induction (lt_wf n) as [n _ IH]. intros v ->.
  apply Hstep. intros w Hw. by apply (IH (size w)).
Qed.

Section WithContext.
Variable ctx : list (string * string).
Variable baseUri : string.

Lemma appends_addType (node : json num) (subject : term) :
  appends (addType ctx node subject).
Proof.
  unfold addType. destruct (get "@type" node) as [ty|]; [|apply appends_skip].
  destruct (truthy ty); [|apply appends_skip].
  destruct ty; try apply appends_throw. apply appends_add.
Qed.

Lemma appends_addItem (rec : json num → string → store num → result (store num))
    (subjectUri : string) (pred : term) (key : string) (i : nat) (item : json num) :
  (∀ b, appends (rec item b)) →
  appends (addItem baseUri rec subjectUri pred key i item).
Proof.
  intros Hrec. unfold addItem. destruct (asPrim item) as [v|]; [apply appends_add|].
  destruct (truthyAt "@id" item); simpl.
  - destruct (resolveId baseUri item) as [u|]; simpl;
      [apply appends_add | apply appends_throw].
  - apply appends_after_add, Hrec.
Qed.

Lemma appends_addEntry (rec : json num → string → store num → result (store num))
    (subjectUri key : string) (val : json num) :
  (∀ w, (size w ≤ size val)%nat → ∀ b, appends (rec w b)) →
  appends (addEntry ctx baseUri rec subjectUri key val).
Proof.
  intros Hrec. unfold addEntry.
  destruct (Js.startsWith "@" key); [apply appends_skip|].
  destruct (resolvePrefix key ctx) as [predUri|]; [|apply appends_skip].
  destruct (String.eqb predUri ""); [apply appends_skip|].
  assert (Hobj : appends (λ st,
    match asPrim val with
    | Some v => Ok (add st (VTerm (sym subjectUri)) (VTerm (sym predUri)) (VPrim v))
    | None =>
        if truthyAt "@id" val
        then uri ← resolveId baseUri val;
             Ok (add st (VTerm (sym subjectUri)) (VTerm (sym predUri)) (VTerm (sym uri)))
        else rec val (subjectUri +:+ "_" +:+ Js.lastSegment key)
               (add st (VTerm (sym subjectUri)) (VTerm (sym predUri))
                  (VTerm (sym (subjectUri +:+ "_" +:+ Js.lastSegment key))))
    end)).
  { destruct (asPrim val) as [v|]; [apply appends_add|].
    destruct (truthyAt "@id" val).
    - destruct (resolveId baseUri val) as [u|]; simpl;
        [apply appends_add | apply appends_throw].
    - apply appends_after_add, Hrec. lia. }
  destruct val as [| | | |items|props]; try exact Hobj.
  apply appends_forEachi. apply Forall_forall. intros item Hin j.
  apply appends_addItem. intros b. apply Hrec.
  apply size_item in Hin. lia.
Qed.

Lemma addTriples_unfold (node : json num) (subjectUri : string) (st : store num) :
  addTriples ctx baseUri node subjectUri st =
    st1 ← addType ctx node (sym subjectUri) st;
    match node with
    | JObj props =>
        forEach (λ '(key, val), addEntry ctx baseUri (addTriples ctx baseUri)
                                  subjectUri key val) props st1
    | JArr items =>
        forEachi (λ i val, addEntry ctx baseUri (addTriples ctx baseUri)
                             subjectUri (Js.ofIndex i) val) 0 items st1
    | JStr s =>
        forEachi (λ i val, addEntry ctx baseUri (λ _ _ st, Ok st)
                             subjectUri (Js.ofIndex i) val) 0 (units s) st1
    | JNull | JBool _ | JNum _ => Ok st1
    end.
Proof. by destruct node. Qed.

(** The store that [addTriples] returns is the store it was given
    followed by the triples it emits on the empty store; it throws on
    one exactly when it throws on the other. *)
Lemma appends_addTriples (node : json num) (subjectUri : string) :
  appends (addTriples ctx baseUri node subjectUri).
Proof.
  revert subjectUri. induction node as [node IH] using json_size_ind.
  intros subjectUri.
  assert (Hrec : ∀ val, size val < size node →
            ∀ key su, appends (addEntry ctx baseUri (addTriples ctx baseUri) su key val)).
  { intros val Hval key su. apply appends_addEntry. intros w Hw b.
    apply IH. lia. }
  eapply appends_ext; [intros st; apply addTriples_unfold|].
  apply (appends_bind (addType ctx _ _)); [apply appends_addType|].
  destruct node as [| | |s|items|props]; try apply appends_skip.
  - apply appends_forEachi, Forall_forall. intros val _ j.
    apply appends_addEntry. intros; apply appends_skip.
  - apply appends_forEachi, Forall_forall. intros val Hin j.
    apply Hrec. by apply size_item.
  - apply appends_forEach, Forall_forall. intros [key val] Hin.
    apply Hrec. by apply size_prop in Hin.
Qed.
End WithContext.
End Append.

(** ** What one property of a node emits *)

Section Entries.
Context {num : Type} `{JsNumber num}.
Variable ctx : list (string * string).
Variable baseUri : string.

Lemma appends_Ok (f : store num → result (store num)) (st st' : store num) :
  appends f → f st = Ok st' → ∃ out, f [] = Ok out ∧ st' = (st ++ out)%list.
Proof.
  intros Hf E. rewrite (Hf st) in E. destruct (f []) as [out|]; [|done].
  injection E as <-. by exists out.
Qed.

Lemma resolvePrefix_Some (key predUri : string) :
  resolvePrefix key ctx = Some predUri → Js.startsWith "@" key = false.
Proof. unfold resolvePrefix. by destruct (Js.startsWith "@" key). Qed.

Lemma eqb_empty_false (x : string) : x ≠ "" → String.eqb x "" = false.
Proof. intros Hx. by apply String.eqb_neq. Qed.

(** A property whose key resolves to a non-empty predicate gets past the
    two early returns of the callback. *)
Lemma addEntry_resolved (rec : json num → string → store num → result (store num))
    (subjectUri key predUri : string) (val : json num) (st : store num) :
  resolvePrefix key ctx = Some predUri → predUri ≠ "" →
  addEntry ctx baseUri rec subjectUri key val st =
    match val with
    | JArr items =>
        forEachi (addItem baseUri rec subjectUri (sym predUri) key) 0 items st
    | _ =>
        match asPrim val with
        | None =>
            if truthyAt "@id" val then
              uri ← resolveId baseUri val;
              Ok (add st (VTerm (sym subjectUri)) (VTerm (sym predUri)) (VTerm (sym uri)))
            else
              rec val (subjectUri +:+ "_" +:+ Js.lastSegment key)
                (add st (VTerm (sym subjectUri)) (VTerm (sym predUri))
                   (VTerm (sym (subjectUri +:+ "_" +:+ Js.lastSegment key))))
        | Some v => Ok (add st (VTerm (sym subjectUri)) (VTerm (sym predUri)) (VPrim v))
        end
    end.
Proof.
  intros Hres Hne. unfold addEntry.
  by rewrite (resolvePrefix_Some _ _ Hres), Hres, (eqb_empty_false _ Hne).
Qed.

(** A nested object whose ["@id"] is a non-empty string: one reference
    triple, whatever the recursive call would do. *)
Lemma resolveId_string (props : list (string * json num)) (x : string) :
  lookupKey "@id" props = Some (JStr x) →
  resolveId baseUri (JObj props)
  = Ok (if Js.startsWith "http" x then x else baseUri +:+ x).
Proof. unfold resolveId; simpl. by intros ->. Qed.

Lemma truthyAt_string (props : list (string * json num)) (x : string) :
  lookupKey "@id" props = Some (JStr x) → x ≠ "" →
  truthyAt "@id" (JObj props) = true.
Proof.
  unfold truthyAt; simpl. intros -> Hx. simpl. by rewrite eqb_empty_false.
Qed.






End Entries.

(** ** C9 and C7: references and blank nodes *)

Section WithoutId.
Context {num : Type} `{JsNumber num}.
Variable ctx : list (string * string).
Variable baseUri : string.




End WithoutId.






(** ** C4: keys that no prefix of the context matches *)

Section Unmatched.
Context {num : Type} `{JsNumber num}.
Variable ctx : list (string * string).
Variable baseUri : string.





End Unmatched.




(** ** C1: when the translator completes *)

Section Totality.
Context {num : Type} `{JsNumber num}.
Variable ctx : list (string * string).
Variable baseUri : string.










End Totality.




(** ** C5: type URIs under both schemes *)

Section TypeURIs.
Context {num : Type} `{JsNumber num}.

Lemma setProperty_lookup (k j : string) (b : bool) (m : gmap string bool) :
  setProperty k b m !! j
  = if decide (k = j ∧ k ≠ "__proto__") then Some b else m !! j.
Proof.
  unfold setProperty. destruct (String.eqb k "__proto__") eqn:E.
  - apply String.eqb_eq in E. case_decide as Hd; [by destruct Hd | done].
  - apply String.eqb_neq in E. rewrite lookup_insert.
    repeat case_decide; try done; naive_solver.
Qed.

Lemma replace_http (X : string) :
  Js.replace "http://" "https://" ("http://schema.org/" +:+ X) = "https://schema.org/" +:+ X.
Proof.
  change ("http://schema.org/" +:+ X) with ("http://" +:+ ("schema.org/" +:+ X)).
  unfold Js.replace. by rewrite JsFacts.search_head.
Qed.

Lemma replace_https (X : string) :
  Js.replace "https://" "http://" ("https://schema.org/" +:+ X) = "http://schema.org/" +:+ X.
Proof.
  change ("https://schema.org/" +:+ X) with ("https://" +:+ ("schema.org/" +:+ X)).
  unfold Js.replace. by rewrite JsFacts.search_head.
Qed.

Lemma http_not_https (X Y : string) : "http://schema.org/" +:+ X ≠ "https://schema.org/" +:+ Y.
Proof. discriminate. Qed.

Lemma not_proto (X : string) :
  "http://schema.org/" +:+ X ≠ "__proto__" ∧ "https://schema.org/" +:+ X ≠ "__proto__".
Proof. split; discriminate. Qed.

Lemma recorded_http (X k : string) :
  recorded ("http://schema.org/" +:+ X) k
  ↔ k = "http://schema.org/" +:+ X ∨ k = "https://schema.org/" +:+ X.
Proof.
  unfold recorded. split.
  - intros [-> | [(Y & ->%JsFacts.append_inv_head & ->) | (Y & E & _)]]; auto.
    by apply http_not_https in E.
  - intros [-> | ->]; [by left | right; left; by exists X].
Qed.

Lemma recorded_https (X k : string) :
  recorded ("https://schema.org/" +:+ X) k
  ↔ k = "https://schema.org/" +:+ X ∨ k = "http://schema.org/" +:+ X.
Proof.
  unfold recorded. split.
  - intros [-> | [(Y & E & _) | (Y & ->%JsFacts.append_inv_head & ->)]]; auto.
    symmetry in E. by apply http_not_https in E.
  - intros [-> | ->]; [by left | right; right; by exists X].
Qed.

Lemma recorded_other (u k : string) :
  Js.startsWith "http://schema.org/" u = false →
  Js.startsWith "https://schema.org/" u = false →
  recorded u k ↔ k = u.
Proof.
  intros E1 E2. unfold recorded. split; [|by left].
  intros [-> | [(Y & -> & _) | (Y & -> & _)]]; [done| |].
  - by rewrite JsFacts.startsWith_append in E1.
  - by rewrite JsFacts.startsWith_append in E2.
Qed.

(** What the body of [if (uri) { ... }] does to the mapping for a
    non-empty string. *)
Lemma recordType_string (u : string) (acc : gmap string bool) :
  u ≠ "" →
  ∃ acc', recordType (num:=num) (PStr u) acc = Ok acc'
    ∧ (∀ k, acc' !! k = Some true
            ↔ acc !! k = Some true ∨ (recorded u k ∧ k ≠ "__proto__"))
    ∧ ((∀ k b, acc !! k = Some b → b = true) → ∀ k b, acc' !! k = Some b → b = true).
Proof.
  intros Hu. unfold recordType. cbn [truthyPrim String_].
  rewrite (eqb_empty_false _ Hu). cbn [negb]. cbv zeta.
  destruct (Js.startsWith "http://schema.org/" u) eqn:E1;
    [|destruct (Js.startsWith "https://schema.org/" u) eqn:E2].
  - apply JsFacts.startsWith_inv in E1 as [X ->]. rewrite replace_http.
    destruct (not_proto X) as [Hp1 Hp2].
    eexists; split; [done|]. split.
    + intros k. rewrite !setProperty_lookup, recorded_http.
      repeat case_decide; naive_solver.
    + intros Hacc k b. rewrite !setProperty_lookup.
      repeat case_decide; naive_solver.
  - apply JsFacts.startsWith_inv in E2 as [X ->]. rewrite replace_https.
    destruct (not_proto X) as [Hp1 Hp2].
    eexists; split; [done|]. split.
    + intros k. rewrite !setProperty_lookup, recorded_https.
      repeat case_decide; naive_solver.
    + intros Hacc k b. rewrite !setProperty_lookup.
      repeat case_decide; naive_solver.
  - eexists; split; [done|]. split.
    + intros k. rewrite setProperty_lookup, (recorded_other _ _ E1 E2).
      repeat case_decide; naive_solver.
    + intros Hacc k b. rewrite setProperty_lookup.
      repeat case_decide; naive_solver.
Qed.

Lemma recordType_falsy (v : prim num) (acc : gmap string bool) :
  truthyPrim v = false → recordType v acc = Ok acc.
Proof. unfold recordType. by intros ->. Qed.

Lemma findTypeURIs_loop_cons (ts tp to : jsval num) (st : store num) (s : jsval num)
    (acc : gmap string bool) :
  findTypeURIs_loop (Triple ts tp to :: st) s acc =
    acc' ← (if matchUri ts s then
              isType ← isRdfType tp;
              if isType : bool then uri ← typeUriOf to; recordType uri acc else Ok acc
            else Ok acc);
    findTypeURIs_loop st s acc'.
Proof. reflexivity. Qed.

(** One round of the loop of [findTypeURIs] on a triple it can read. *)
Lemma findTypeURIs_step (subj ts tp to : jsval num) (acc : gmap string bool) :
  readableType subj (Triple ts tp to) →
  ∃ acc',
    (if matchUri ts subj then
       isType ← isRdfType tp;
       if isType : bool then uri ← typeUriOf to; recordType uri acc else Ok acc
     else Ok acc) = Ok acc'
    ∧ (∀ k, acc' !! k = Some true
            ↔ acc !! k = Some true
              ∨ (k ≠ "__proto__" ∧ ∃ u, givesType subj (Triple ts tp to) u ∧ recorded u k))
    ∧ ((∀ k b, acc !! k = Some b → b = true) → ∀ k b, acc' !! k = Some b → b = true).
Proof.
  unfold readableType, givesType. cbn [s p o].
  intros Hread.
  assert (Hsame : ∃ acc', Ok acc = Ok acc'
    ∧ (∀ k, acc' !! k = Some true ↔ acc !! k = Some true)
    ∧ ((∀ k b, acc !! k = Some b → b = true) → ∀ k b, acc' !! k = Some b → b = true))
    by (exists acc; naive_solver).
  assert (Hstr : ∀ u, ∃ acc', recordType (PStr u) acc = Ok acc'
    ∧ (∀ k, acc' !! k = Some true
            ↔ acc !! k = Some true ∨ (k ≠ "__proto__" ∧ u ≠ "" ∧ recorded u k))
    ∧ ((∀ k b, acc !! k = Some b → b = true) → ∀ k b, acc' !! k = Some b → b = true)).
  { intros u. destruct (decide (u = "")) as [->|Hu].
    - rewrite recordType_falsy by done. exists acc. naive_solver.
    - destruct (recordType_string u acc Hu) as (acc' & -> & Hk & Hb).
      exists acc'. split; [done|]. split; [|done].
      intros k. rewrite Hk. naive_solver. }
  destruct (matchUri ts subj) eqn:Hs.
  2:{ destruct Hsame as (acc' & ? & Hk & ?). exists acc'. split; [done|].
      split; [|done]. intros k. rewrite Hk. naive_solver. }
  destruct (Hread eq_refl) as [[Hp1 Hp2] Hobj]. clear Hread.
  assert (∃ b, isRdfType tp = Ok b) as [b Hb].
  { destruct tp as [x|[]]; simpl; eauto; try done.
    destruct (uri x) as [u|]; [destruct (String.eqb u "")|]; eauto. }
  destruct b.
  all: setoid_rewrite Hb; cbn [mbind result_bind].
  2:{ destruct Hsame as (acc' & ? & Hk & ?). exists acc'. split; [done|].
      split; [|done]. intros k. rewrite Hk. naive_solver. }
  destruct (Hobj Hb) as [[x ->] | [[u ->] | (v & -> & Hv & Hf)]]; clear Hobj.
  - cbn [typeUriOf mbind result_bind objectUri]. destruct (uri x) as [u|].
    + destruct (Hstr u) as (acc' & -> & Hk & ?). exists acc'. split; [done|].
      split; [|done]. intros k. rewrite Hk. naive_solver.
    + rewrite recordType_falsy by done.
      destruct Hsame as (acc' & ? & Hk & ?). exists acc'. split; [done|].
      split; [|done]. intros k. rewrite Hk. naive_solver.
  - cbn [typeUriOf mbind result_bind objectUri].
    destruct (Hstr u) as (acc' & -> & Hk & ?). exists acc'. split; [done|].
    split; [|done]. intros k. rewrite Hk. naive_solver.
  - assert (typeUriOf (VPrim v) = Ok v) as -> by by destruct v.
    cbn [mbind result_bind]. rewrite recordType_falsy by done.
    destruct Hsame as (acc' & ? & Hk & ?). exists acc'. split; [done|].
    split; [|done]. intros k. rewrite Hk.
    split; [by left|]. intros [?|(_ & u & (_ & _ & Hu & Hne) & _)]; [done|].
    destruct v; simpl in *; try done. injection Hu as ->.
    apply negb_false_iff, String.eqb_eq in Hf. done.
Qed.

(** The loop of [findTypeURIs] from any mapping whose values are [true]. *)
Lemma findTypeURIs_loop_spec (st : store num) (s : jsval num) (acc : gmap string bool) :
  Forall (readableType s) st →
  ∃ m, findTypeURIs_loop st s acc = Ok m
    ∧ (∀ k, m !! k = Some true
            ↔ acc !! k = Some true
              ∨ (k ≠ "__proto__" ∧ ∃ t u, t ∈ st ∧ givesType s t u ∧ recorded u k))
    ∧ ((∀ k b, acc !! k = Some b → b = true) → ∀ k b, m !! k = Some b → b = true).
Proof.
  intros Hst. revert acc. induction Hst as [|[ts tp to] st Ht _ IH]; intros acc.
  - exists acc. split; [done|]. split; [|done]. intros k. split; [by left|].
    intros [?|(_ & t & u & Hin & _)]; [done|]. by apply elem_of_nil in Hin.
  - rewrite findTypeURIs_loop_cons.
    destruct (findTypeURIs_step s ts tp to acc Ht) as (acc1 & -> & Hk1 & Hb1).
    cbn [mbind result_bind].
    destruct (IH acc1) as (m & -> & Hk & Hb). exists m. split; [done|]. split.
    + intros k. rewrite Hk, Hk1. setoid_rewrite elem_of_cons. naive_solver.
    + intros Hacc. by apply Hb, Hb1.
Qed.
End TypeURIs.

(** C5, as the code has it. Let every triple of the store be one that
    [findTypeURIs(s)] can read: where the subject matches [s], the predicate
    is neither [null] nor [undefined], and where the predicate is then
    rdf:type the object is a term, a string or a falsy primitive other than
    [null]. Then [findTypeURIs(s)] returns a mapping, and for every triple
    [(s, rdf:type, o)] of the store whose object URI is under the
    [schema.org] namespace the mapping maps both the URI exactly as stored
    and its counterpart under the other scheme to [true]; a stored type URI
    outside [schema.org] is mapped to [true] itself (unless it is the key
    [__proto__], which an object literal does not store); and the mapping
    holds nothing else: each of its keys is a stored type URI of [s] or the
    cross-scheme counterpart of one under [schema.org], and each of its
    values is [true]. *)
Theorem type_uris_under_both_schemes {num : Type} `{JsNumber num}
    (st : store num) (subject : jsval num) :
  Forall (readableType subject) st →
  ∃ m, findTypeURIs st subject = Ok m
    ∧ (∀ t X, t ∈ st → givesType subject t ("https://schema.org/" +:+ X) →
         m !! ("https://schema.org/" +:+ X) = Some true
         ∧ m !! ("http://schema.org/" +:+ X) = Some true)
    ∧ (∀ t X, t ∈ st → givesType subject t ("http://schema.org/" +:+ X) →
         m !! ("http://schema.org/" +:+ X) = Some true
         ∧ m !! ("https://schema.org/" +:+ X) = Some true)
    ∧ (∀ t u, t ∈ st → givesType subject t u → u ≠ "__proto__" → m !! u = Some true)
    ∧ (∀ k, is_Some (m !! k) →
         m !! k = Some true ∧ ∃ t u, t ∈ st ∧ givesType subject t u ∧ recorded u k).
Proof.
  intros Hst. unfold findTypeURIs.
  destruct (findTypeURIs_loop_spec st subject ∅ Hst) as (m & -> & Hk & Hb).
  exists m. split; [done|].
  assert (Hin : ∀ t u k, t ∈ st → givesType subject t u → recorded u k →
            k ≠ "__proto__" → m !! k = Some true).
  { intros t u k Ht Hu Hr Hp. apply Hk. right. split; [done|]. by exists t, u. }
  assert (Hempty : ∀ (k : string) (b : bool), (∅ : gmap string bool) !! k = Some b → b = true)
    by (intros k b; by rewrite lookup_empty).
  split; [|split; [|split]].
  - intros t X Ht Hu. split.
    + apply (Hin t _ _ Ht Hu); [by left | apply not_proto].
    + apply (Hin t _ _ Ht Hu); [right; right; by exists X | apply not_proto].
  - intros t X Ht Hu. split.
    + apply (Hin t _ _ Ht Hu); [by left | apply not_proto].
    + apply (Hin t _ _ Ht Hu); [right; left; by exists X | apply not_proto].
  - intros t u Ht Hu Hp. apply (Hin t u u Ht Hu); [by left | done].
  - intros k [b Hkb].
    assert (b = true) as -> by apply (Hb Hempty k b Hkb).
    split; [done|].
    apply Hk in Hkb as [Hkb | (_ & t & u & ? & ? & ?)]; [by rewrite lookup_empty in Hkb|].
    by exists t, u.
Qed.

(** The theorem at the store of [{"@type": "https://schema.org/Person"}]. *)
Lemma type_uris_under_both_schemes_witness :
  ∃ m, findTypeURIs (num:=Z)
         [Triple (VTerm (sym "http://b/#thing")) (VTerm (sym RDF_TYPE))
            (VTerm (sym "https://schema.org/Person"))]
         (VTerm (sym "http://b/#thing")) = Ok m
       ∧ m !! "https://schema.org/Person" = Some true
       ∧ m !! "http://schema.org/Person" = Some true.
Proof.
  destruct (type_uris_under_both_schemes (num:=Z)
              [Triple (VTerm (sym "http://b/#thing")) (VTerm (sym RDF_TYPE))
                 (VTerm (sym "https://schema.org/Person"))]
              (VTerm (sym "http://b/#thing")))
    as (m & Hm & Hhttps & _).
  - constructor; [|constructor]. intros _. split; [split; discriminate|].
    intros _. left. by eexists.
  - exists m. split; [exact Hm|].
    refine (Hhttps (Triple (VTerm (sym "http://b/#thing")) (VTerm (sym RDF_TYPE))
                      (VTerm (sym "https://schema.org/Person"))) "Person" _ _).
    + apply list_elem_of_here.
    + repeat split. discriminate.
Defined.

(** The claim as the specification words it fails at the store of
    [{"@type": "https://schema.org/Person", rdf:type: true}]: the store
    holds a type triple under [schema.org], and [findTypeURIs] returns no
    mapping, because the raw [true] of the second type triple has no
    [startsWith] method. *)
Lemma findTypeURIs_raw_boolean :
  let root := sym "http://b/#thing" in
  let st : store Z :=
    [Triple (VTerm root) (VTerm (sym RDF_TYPE)) (VTerm (sym "https://schema.org/Person"));
     Triple (VTerm root) (VTerm (sym RDF_TYPE)) (VPrim (PBool true))] in
  parseJsonLdToStore
    (JObj [("@type", JStr "https://schema.org/Person"); (RDF_TYPE, JBool true)])
    "http://b/" createStore = Ok (root, st)
  ∧ findTypeURIs st (VTerm root) = TypeError.
Proof. split; reflexivity. Qed.

(** ** C6: the two schemes of [schema.org] *)

Section Schemes.
Context {num : Type} `{JsNumber num}.

(** A URI under the http form in which the https form does not occur is
    its own normal form. *)
Lemma normalizeStr_http (X : string) :
  Js.search "https://schema.org/" ("http://schema.org/" +:+ X) = None →
  normalizeStr ("http://schema.org/" +:+ X) = "http://schema.org/" +:+ X.
Proof. unfold normalizeStr, Js.replace. by intros ->. Qed.

(** For such a URI the comparison does equate the two schemes, in both
    directions. *)
Lemma matchUri_schemes (X : string) :
  Js.search "https://schema.org/" ("http://schema.org/" +:+ X) = None →
  matchUri (num:=num) (VTerm (sym ("http://schema.org/" +:+ X)))
    (VTerm (sym ("https://schema.org/" +:+ X))) = true
  ∧ matchUri (num:=num) (VTerm (sym ("https://schema.org/" +:+ X)))
      (VTerm (sym ("http://schema.org/" +:+ X))) = true.
Proof.
  intros HX. rewrite !matchUri_sym_sym, normalizeStr_https, (normalizeStr_http _ HX).
  by rewrite String.eqb_refl.
Qed.

(** Whatever the translator is given, the triples that were in the store
    stay as they were, at the front. *)
Lemma parseJsonLdToStore_keeps (D : json num) (baseUri : string) (st st' : store num)
    (root : term) :
  parseJsonLdToStore D baseUri st = Ok (root, st') → ∃ out, st' = (st ++ out)%list.
Proof.
  intros (rootId & _ & _ & Hrun)%parseJsonLdToStore_root.
  apply (appends_Ok _ _ _ (appends_addTriples _ _ _ _)) in Hrun as (out & _ & ->).
  by exists out.
Qed.
End Schemes.

(** C6 at the input where the code departs from it. The subject URI
    [http://schema.org/X] with [X = https://schema.org/] is stored, and the
    query uses [https://schema.org/X]. [normalize] replaces the first
    occurrence of the https form wherever it stands: inside the stored URI,
    at the front of the queried one. The two normal forms differ, so the
    comparison fails in both directions and none of the four read
    operations finds the triples, which the store keeps as inserted. *)
Theorem schemes_not_equated_inside_uri :
  let stored := "http://schema.org/" +:+ "https://schema.org/" in
  let queried := "https://schema.org/" +:+ "https://schema.org/" in
  let pred := VTerm (sym "http://x/p") in
  let st : store Z :=
    add (add createStore (VTerm (sym stored)) pred (VPrim (PStr "v")))
      (VTerm (sym stored)) (VTerm (sym RDF_TYPE)) (VTerm (sym "http://x/T")) in
  normalizeStr stored = "http://schema.org/http://schema.org/"
  ∧ normalizeStr queried = "http://schema.org/https://schema.org/"
  ∧ matchUri (num:=Z) (VTerm (sym stored)) (VTerm (sym queried)) = false
  ∧ matchUri (num:=Z) (VTerm (sym queried)) (VTerm (sym stored)) = false
  ∧ anyValue st (VTerm (sym stored)) pred = Some "v"
  ∧ anyValue st (VTerm (sym queried)) pred = None
  ∧ any st (VTerm (sym queried)) pred = None
  ∧ each st (VTerm (sym queried)) pred = []
  ∧ findTypeURIs st (VTerm (sym queried)) = Ok ∅
  ∧ st = [Triple (VTerm (sym stored)) pred (VPrim (PStr "v"));
          Triple (VTerm (sym stored)) (VTerm (sym RDF_TYPE)) (VTerm (sym "http://x/T"))].
Proof. repeat split. Qed.

(** ** C8: [each] *)

Section Each.
Context {num : Type} `{JsNumber num}.

Lemma each_app (st1 st2 : store num) (subject pred : jsval num) :
  each (st1 ++ st2)%list subject pred = (each st1 subject pred ++ each st2 subject pred)%list.
Proof.
  induction st1 as [|t st1 IH]; simpl; [done|].
  destruct (matches subject pred t); [|done].
  destruct (objectTerm (o t)); simpl; by rewrite IH.
Qed.

Lemma each_no_match (st : store num) (subject pred : jsval num) :
  Forall (λ t, matches subject pred t = false) st → each st subject pred = [].
Proof. induction 1 as [|t st Ht _ IH]; simpl; [done|]. by rewrite Ht. Qed.

Lemma objectTerm_returned (x : jsval num) : objectTerm x = returned x.
Proof. by destruct x as [|[]]. Qed.

Lemma each_filter (st : list (triple num)) (subject pred : jsval num) :
  each st subject pred
  = omap (λ t, returned t.(o)) (filter (λ t, matches subject pred t = true) st).
Proof.
  induction st as [|t st IH]; [done|]. rewrite filter_cons. simpl.
  destruct (matches subject pred t) eqn:E.
  - rewrite decide_True by done. simpl. rewrite objectTerm_returned.
    destruct (returned (o t)); by rewrite IH.
  - by rewrite decide_False by done.
Qed.

Lemma normalizeStr_unfold (x : string) :
  normalizeStr x =
    match Js.search "https://schema.org/" x with
    | Some (before, after) => before +:+ "http://schema.org/" +:+ after
    | None => x
    end.
Proof.
  unfold normalizeStr, Js.replace.
  by destruct (Js.search "https://schema.org/" x) as [[before after]|].
Qed.

(** A subject and the blank nodes synthesized under it never compare
    equal, whatever the normalisation does. *)
Lemma normalizeStr_below (subjectUri z : string) :
  normalizeStr (subjectUri +:+ "_" +:+ z) ≠ normalizeStr subjectUri.
Proof.
  rewrite !normalizeStr_unfold.
  destruct (Js.search "https://schema.org/" subjectUri) as [[b a]|] eqn:E.
  - rewrite (JsFacts.search_app _ _ ("_" +:+ z) _ _ E).
    intros Heq. do 2 apply JsFacts.append_inv_head in Heq.
    apply (f_equal String.length) in Heq.
    rewrite JsFacts.length_append in Heq. simpl in Heq. lia.
  - destruct (Js.search "https://schema.org/" (subjectUri +:+ "_" +:+ z))
      as [[b a]|] eqn:E'.
    + apply JsFacts.search_sound in E'. intros Heq. rewrite <- Heq in E'.
      rewrite !JsFacts.append_assoc in E'. apply JsFacts.append_inv_head in E'.
      by apply http_not_https in E'.
    + intros Heq. apply (f_equal String.length) in Heq.
      rewrite JsFacts.length_append in Heq. simpl in Heq. lia.
Qed.

Lemma below_no_match (subjectUri : string) (pred : jsval num) (t : triple num) :
  below subjectUri t → matches (VTerm (sym subjectUri)) pred t = false.
Proof.
  destruct t as [ts tp to]. intros [z Hz]. simpl in Hz. subst ts. unfold matches.
  rewrite matchUri_sym_sym.
  by rewrite (proj2 (String.eqb_neq _ _) (normalizeStr_below subjectUri z)).
Qed.

Lemma below_trans (subjectUri w : string) (t : triple num) :
  t.(s) = VTerm (sym (subjectUri +:+ "_" +:+ w)) ∨ below (subjectUri +:+ "_" +:+ w) t →
  below subjectUri t.
Proof.
  intros [Ht | [z Hz]]; [by exists w|].
  exists (w +:+ "_" +:+ z). by rewrite Hz, !JsFacts.append_assoc.
Qed.

Lemma emits_skip (Q : triple num → Prop) : emits Q (λ st, Ok st).
Proof. split; [apply appends_skip|]. by intros out [= <-]. Qed.

Lemma emits_throw (Q : triple num → Prop) : emits Q (λ _, TypeError).
Proof. split; [apply appends_throw | done]. Qed.

Lemma emits_add (Q : triple num → Prop) (ts tp to : jsval num) :
  Q (Triple ts tp to) → emits Q (λ st, Ok (add st ts tp to)).
Proof.
  intros Ht. split; [apply appends_add|]. intros out [= <-]. by constructor.
Qed.

Lemma emits_ext (Q : triple num → Prop) (f g : store num → result (store num)) :
  (∀ st, f st = g st) → emits Q g → emits Q f.
Proof.
  intros E [Ha Hq]. split; [by eapply appends_ext|]. intros out. rewrite E. apply Hq.
Qed.

Lemma emits_weaken (Q Q' : triple num → Prop) (f : store num → result (store num)) :
  (∀ t, Q t → Q' t) → emits Q f → emits Q' f.
Proof.
  intros HQ [Ha Hq]. split; [done|]. intros out Hout.
  eapply Forall_impl; [by apply Hq | done].
Qed.

Lemma emits_bind (Q : triple num → Prop) (f g : store num → result (store num)) :
  emits Q f → emits Q g → emits Q (λ st, st1 ← f st; g st1).
Proof.
  intros [Haf Hqf] [Hag Hqg]. split; [by apply appends_bind|].
  intros out. destruct (f []) as [out1|] eqn:Ef; [|done]. simpl.
  intros (out2 & Eg & ->)%(appends_Ok _ _ _ Hag).
  apply Forall_app. split; [by apply Hqf | by apply Hqg].
Qed.

Lemma emits_after_add (Q : triple num → Prop) (ts tp to : jsval num)
    (g : store num → result (store num)) :
  Q (Triple ts tp to) → emits Q g → emits Q (λ st, g (add st ts tp to)).
Proof.
  intros Ht Hg. apply (emits_bind Q (λ st, Ok (add st ts tp to)) g); [|done].
  by apply emits_add.
Qed.

Lemma emits_forEach {A : Type} (Q : triple num → Prop)
    (f : A → store num → result (store num)) (l : list A) :
  Forall (λ x, emits Q (f x)) l → emits Q (forEach f l).
Proof.
  induction 1 as [|x l Hx _ IH]; [apply emits_skip|].
  by apply (emits_bind Q (f x) (forEach f l)).
Qed.

Lemma emits_forEachi {A : Type} (Q : triple num → Prop)
    (f : nat → A → store num → result (store num)) (l : list A) (i : nat) :
  Forall (λ x, ∀ j, emits Q (f j x)) l → emits Q (forEachi f i l).
Proof.
  intros Hl; revert i. induction Hl as [|x l Hx _ IH]; intros i; [apply emits_skip|].
  by apply (emits_bind Q (f i x) (forEachi f (S i) l)).
Qed.
End Each.

Section Subjects.
Context {num : Type} `{JsNumber num}.
Variable ctx : list (string * string).
Variable baseUri : string.

Lemma emits_addType (node : json num) (subjectUri : string) :
  emits (λ t, t.(s) = VTerm (sym subjectUri) ∧ t.(p) = VTerm (sym RDF_TYPE))
    (addType ctx node (sym subjectUri)).
Proof.
  unfold addType. destruct (get "@type" node) as [ty|]; [|apply emits_skip].
  destruct (truthy ty); [|apply emits_skip].
  destruct ty; try apply emits_throw. by apply emits_add.
Qed.

Lemma emits_addItem (rec : json num → string → store num → result (store num))
    (subjectUri key predUri : string) (i : nat) (item : json num) :
  resolvePrefix key ctx = Some predUri → predUri ≠ "" →
  (∀ b, emits (ownOrBelow b) (rec item b)) →
  emits (linkOrBelow ctx subjectUri key)
    (addItem baseUri rec subjectUri (sym predUri) key i item).
Proof.
  intros Hres Hne Hrec.
  assert (Hlink : ∀ to : jsval num, linkOrBelow ctx subjectUri key
                          (Triple (VTerm (sym subjectUri)) (VTerm (sym predUri)) to)).
  { intros to. left. split; [done|]. by exists predUri. }
  unfold addItem. destruct (asPrim item) as [v|]; [by apply emits_add|].
  destruct (truthyAt "@id" item); simpl.
  - destruct (resolveId baseUri item) as [u|]; simpl;
      [by apply emits_add | apply emits_throw].
  - apply emits_after_add; [done|].
    eapply emits_weaken; [|apply Hrec]. intros t Ht. right. by eapply below_trans.
Qed.

Lemma emits_addEntry (rec : json num → string → store num → result (store num))
    (subjectUri key : string) (val : json num) :
  (∀ w, (size w ≤ size val)%nat → ∀ b, emits (ownOrBelow b) (rec w b)) →
  emits (linkOrBelow ctx subjectUri key) (addEntry ctx baseUri rec subjectUri key val).
Proof.
  intros Hrec. unfold addEntry.
  destruct (Js.startsWith "@" key) eqn:Hat; [apply emits_skip|].
  destruct (resolvePrefix key ctx) as [predUri|] eqn:Hres; [|apply emits_skip].
  destruct (String.eqb predUri "") eqn:Hne; [apply emits_skip|].
  apply String.eqb_neq in Hne.
  assert (Hlink : ∀ to : jsval num, linkOrBelow ctx subjectUri key
                          (Triple (VTerm (sym subjectUri)) (VTerm (sym predUri)) to)).
  { intros to. left. split; [done|]. by exists predUri. }
  destruct val as [|b|n|x|items|props]; simpl; try by apply emits_add.
  - apply emits_forEachi, Forall_forall. intros item Hin j.
    apply emits_addItem; [done..|]. intros b. apply Hrec.
    apply size_item in Hin. lia.
  - destruct (truthyAt "@id" (JObj props)).
    + destruct (resolveId baseUri (JObj props)) as [u|]; simpl;
        [by apply emits_add | apply emits_throw].
    + apply emits_after_add; [done|].
      eapply emits_weaken; [|by apply Hrec]. intros t Ht. right. by eapply below_trans.
Qed.

(** Every triple that [addTriples(node, subjectUri)] emits is about
    [subjectUri] or about a blank node synthesized under it. *)
Lemma emits_addTriples (node : json num) (subjectUri : string) :
  emits (ownOrBelow subjectUri) (addTriples ctx baseUri node subjectUri).
Proof.
  revert subjectUri. induction node as [node IH] using json_size_ind.
  intros subjectUri.
  assert (Hweak : ∀ key (t : triple num),
            linkOrBelow ctx subjectUri key t → ownOrBelow subjectUri t).
  { intros key t [[Ht _]|Ht]; [by left | by right]. }
  assert (Hrec : ∀ val, size val < size node →
            ∀ key, emits (ownOrBelow subjectUri)
                     (addEntry ctx baseUri (addTriples ctx baseUri) subjectUri key val)).
  { intros val Hval key. eapply emits_weaken; [apply Hweak|].
    apply emits_addEntry. intros w Hw b. apply IH. lia. }
  eapply emits_ext; [intros st; apply addTriples_unfold|].
  apply (emits_bind _ (addType ctx _ _)).
  { eapply emits_weaken; [|apply emits_addType]. intros t [Ht _]. by left. }
  destruct node as [| | |x|items|props]; try apply emits_skip.
  - apply emits_forEachi, Forall_forall. intros val _ j.
    eapply emits_weaken; [apply Hweak|].
    apply emits_addEntry. intros; apply emits_skip.
  - apply emits_forEachi, Forall_forall. intros val Hin j.
    apply Hrec. by apply size_item.
  - apply emits_forEach, Forall_forall. intros [key val] Hin.
    apply Hrec. by apply size_prop in Hin.
Qed.

Lemma forEach_app {A : Type} (f : A → store num → result (store num))
    (l1 l2 : list A) (st : store num) :
  forEach f (l1 ++ l2)%list st = st1 ← forEach f l1 st; forEach f l2 st1.
Proof.
  revert st. induction l1 as [|x l1 IH]; intros st; simpl; [done|].
  destruct (f x st) as [st1|]; simpl; [apply IH | done].
Qed.
End Subjects.

Section ArrayOrder.
Context {num : Type} `{JsNumber num}.

Lemma addType_falsy (ctx : list (string * string)) (node : json num) (subject : term)
    (st : store num) :
  truthyAt "@type" node = false → addType ctx node subject st = Ok st.
Proof.
  unfold truthyAt, addType. destruct (get "@type" node) as [ty|]; [|done].
  by intros ->.
Qed.

(** In the store of a translated object, the triples that match the root
    and a predicate [P] come from the properties of the root whose
    predicate matches [P]; here, from the one property at hand. *)
Lemma each_of_property (ctx : list (string * string)) (baseUri rootId k P : string)
    (pre post : list (string * json num)) (val : json num)
    (out : store num) (st' : store num) :
  addTriples ctx baseUri (JObj (pre ++ (k, val) :: post)) rootId [] = Ok st' →
  (∀ k' v' P', (k', v') ∈ (pre ++ post)%list →
     resolvePrefix k' ctx = Some P' → P' ≠ "" →
     matchUri (num:=num) (VTerm (sym P')) (VTerm (sym P)) = false) →
  (truthyAt "@type" (JObj (pre ++ (k, val) :: post)) = true →
   matchUri (num:=num) (VTerm (sym RDF_TYPE)) (VTerm (sym P)) = false) →
  addEntry ctx baseUri (addTriples ctx baseUri) rootId k val [] = Ok out →
  each st' (VTerm (sym rootId)) (VTerm (sym P))
  = each out (VTerm (sym rootId)) (VTerm (sym P)).
Proof.
  intros Hrun Hother Htype Hout. rewrite addTriples_unfold in Hrun.
  set (D := JObj (pre ++ (k, val) :: post)) in *.
  set (f := λ '(key, w), addEntry ctx baseUri (addTriples ctx baseUri) rootId key w).
  set (Qnm := λ t : triple num, matches (VTerm (sym rootId)) (VTerm (sym P)) t = false).
  assert (Hf : ∀ k' v', (k', v') ∈ (pre ++ post)%list → emits Qnm (f (k', v'))).
  { intros k' v' Hin. eapply emits_weaken; [|apply emits_addEntry].
    - intros [ts tp to] [[Hs (P' & HP' & Hne & Hp)] | Hb].
      + simpl in Hs, Hp. subst ts tp. unfold Qnm, matches.
        rewrite (Hother k' v' P' Hin HP' Hne). apply andb_false_r.
      + by apply below_no_match.
    - intros w _ b. apply emits_addTriples. }
  destruct (addType ctx D (sym rootId) []) as [st1|] eqn:Ety; [|done].
  assert (Hst1 : each st1 (VTerm (sym rootId)) (VTerm (sym P)) = []).
  { destruct (truthyAt "@type" D) eqn:Ht.
    - apply each_no_match.
      eapply Forall_impl; [apply (proj2 (emits_addType ctx D rootId) _ Ety)|].
      intros [ts tp to] [Hs Hp]. simpl in Hs, Hp. subst ts tp. unfold matches.
      rewrite (Htype eq_refl). apply andb_false_r.
    - rewrite (addType_falsy _ _ _ _ Ht) in Ety. by injection Ety as <-. }
  cbn [mbind result_bind] in Hrun. fold f in Hrun.
  rewrite forEach_app in Hrun.
  destruct (forEach f pre st1) as [st2|] eqn:Epre; [|done].
  cbn [mbind result_bind forEach] in Hrun.
  destruct (f (k, val) st2) as [st3|] eqn:Ek; [|done].
  cbn [mbind result_bind] in Hrun.
  assert (Hpre : emits Qnm (forEach f pre)).
  { apply emits_forEach, Forall_forall. intros [k' v'] Hin. apply Hf.
    apply elem_of_app. by left. }
  assert (Hpost : emits Qnm (forEach f post)).
  { apply emits_forEach, Forall_forall. intros [k' v'] Hin. apply Hf.
    apply elem_of_app. by right. }
  apply (appends_Ok _ _ _ (proj1 Hpre)) in Epre as (out1 & Eout1 & ->).
  apply (appends_Ok _ _ _ (proj1 Hpost)) in Hrun as (out3 & Eout3 & ->).
  assert (Hk : appends (f (k, val))).
  { apply appends_addEntry. intros w _ b. apply appends_addTriples. }
  apply (appends_Ok _ _ _ Hk) in Ek as (out2 & Eout2 & ->).
  unfold f in Eout2. rewrite Hout in Eout2. injection Eout2 as <-.
  rewrite !each_app, Hst1.
  rewrite (each_no_match out1) by apply (proj2 Hpre _ Eout1).
  rewrite (each_no_match out3) by apply (proj2 Hpost _ Eout3).
  by rewrite app_nil_r.
Qed.
End ArrayOrder.

(** C8, as the code has it. For every store, [each(s, p)] returns, in
    insertion order, the objects of the matching triples that are neither
    [null] nor [undefined], a term as it is and a raw scalar wrapped as a
    Literal. In particular, let a document have a property whose value is
    the array [["a","b","c"]] and whose key resolves to a non-empty
    predicate [P]; let no other property of the document resolve to a
    predicate that matches [P], and let [P] not match rdf:type if the
    document has a type. Then, in the store that the translator fills from
    an empty one, [each(rootSubject, P)] is exactly the three Literals with
    the values ["a"], ["b"], ["c"], in that order. *)
Theorem each_in_insertion_order {num : Type} `{JsNumber num} :
  (∀ (st : list (triple num)) (subject pred : jsval num),
     each st subject pred
     = omap (λ t, returned t.(o)) (filter (λ t, matches subject pred t = true) st))
  ∧ (∀ (pre post : list (string * json num)) (baseUri k P a b c : string)
       (root : term) (st' : store num),
       let D := JObj (pre ++ (k, JArr [JStr a; JStr b; JStr c]) :: post) in
       parseJsonLdToStore D baseUri createStore = Ok (root, st') →
       resolvePrefix k (buildContext D) = Some P → P ≠ "" →
       (∀ k' v' P', (k', v') ∈ (pre ++ post)%list →
          resolvePrefix k' (buildContext D) = Some P' → P' ≠ "" →
          matchUri (num:=num) (VTerm (sym P')) (VTerm (sym P)) = false) →
       (truthyAt "@type" D = true →
        matchUri (num:=num) (VTerm (sym RDF_TYPE)) (VTerm (sym P)) = false) →
       each st' (VTerm root) (VTerm (sym P))
       = [literal (PStr a); literal (PStr b); literal (PStr c)]).
Proof.
  split; [apply each_filter|].
  intros pre post baseUri k P a b c root st' D Hrun Hres Hne Hother Htype.
  apply parseJsonLdToStore_root in Hrun as (rootId & _ & -> & Hrun).
  pose (subject := VTerm (num:=num) (sym rootId)).
  pose (pred := VTerm (num:=num) (sym P)).
  rewrite (each_of_property _ _ _ _ _ _ _ _
             [Triple subject pred (VPrim (PStr a)); Triple subject pred (VPrim (PStr b));
              Triple subject pred (VPrim (PStr c))] _ Hrun Hother Htype).
  - unfold each, matches, subject, pred. by rewrite !matchUri_sym_refl.
  - by rewrite (addEntry_resolved _ _ _ _ _ _ _ _ Hres Hne).
Qed.

(** The theorem at a document whose context maps the prefix of the
    property. *)
Lemma each_in_insertion_order_witness :
  each (num:=Z)
    [Triple (VTerm (sym "http://b/#thing")) (VTerm (sym "http://ex/items")) (VPrim (PStr "a"));
     Triple (VTerm (sym "http://b/#thing")) (VTerm (sym "http://ex/items")) (VPrim (PStr "b"));
     Triple (VTerm (sym "http://b/#thing")) (VTerm (sym "http://ex/items")) (VPrim (PStr "c"));
     Triple (VTerm (sym "http://b/#thing")) (VTerm (sym "name")) (VPrim (PStr "n"))]
    (VTerm (sym "http://b/#thing")) (VTerm (sym "http://ex/items"))
  = [literal (PStr "a"); literal (PStr "b"); literal (PStr "c")].
Proof.
  refine (proj2 (each_in_insertion_order (num:=Z))
            [("@context", JObj [("ex", JStr "http://ex/")])] [("name", JStr "n")]
            "http://b/" "ex:items" "http://ex/items" "a" "b" "c"
            (sym "http://b/#thing") _ eq_refl eq_refl _ _ _).
  - discriminate.
  - intros k' v' P' Hin. apply elem_of_cons in Hin as [[= -> ->] | Hin].
    + discriminate.
    + apply list_elem_of_singleton in Hin as [= -> ->]. by intros [= <-].
  - discriminate.
Defined.

(** The claim as the specification words it fails in both parts. In the
    store of [{"items": ["a", null, "c"]}] three triples match the query
    and [each] returns two terms. In the store of [{"@context": {"x": ""},
    "items": ["a","b","c"], "x:items": "d"}] two properties resolve to the
    predicate [items], and [each] returns four terms. *)
Lemma each_skips_null_and_merges_properties :
  let root := sym "http://b/#thing" in
  (∃ st, parseJsonLdToStore (num:=Z)
           (JObj [("items", JArr [JStr "a"; JNull; JStr "c"])]) "http://b/" createStore
         = Ok (root, st)
         ∧ length (filter (λ t, matches (VTerm root) (VTerm (sym "items")) t = true) st) = 3
         ∧ each st (VTerm root) (VTerm (sym "items"))
           = [literal (PStr "a"); literal (PStr "c")])
  ∧ (∃ st, parseJsonLdToStore (num:=Z)
             (JObj [("@context", JObj [("x", JStr "")]);
                    ("items", JArr [JStr "a"; JStr "b"; JStr "c"]);
                    ("x:items", JStr "d")]) "http://b/" createStore
           = Ok (root, st)
           ∧ resolvePrefix "items" [("x", "")] = Some "items"
           ∧ each st (VTerm root) (VTerm (sym "items"))
             = [literal (PStr "a"); literal (PStr "b"); literal (PStr "c");
                literal (PStr "d")]).
Proof.
  intros root. split; eexists; (split; [reflexivity|]); split; reflexivity.
Qed.

(** * Further properties of the store *)

Section Reads.
Context {num : Type} `{JsNumber num}.

Lemma anyValue_app (st1 st2 : store num) (subject pred : jsval num) :
  Forall (λ t, matches subject pred t = false) st1 →
  anyValue (st1 ++ st2)%list subject pred = anyValue st2 subject pred.
Proof. induction 1 as [|t st Ht _ IH]; simpl; [done|]. by rewrite Ht. Qed.

Lemma any_app (st1 st2 : store num) (subject pred : jsval num) :
  Forall (λ t, matches subject pred t = false) st1 →
  any (st1 ++ st2)%list subject pred = any st2 subject pred.
Proof. induction 1 as [|t st Ht _ IH]; simpl; [done|]. by rewrite Ht. Qed.

Lemma matchUri_refl (a : jsval num) : termOrString a → matchUri a a = true.
Proof.
  intros [[x ->] | [u ->]]; unfold matchUri; simpl; apply String.eqb_refl.
Qed.

Lemma matchUri_query_text (a : jsval num) (x : term) :
  matchUri a (VTerm x) = matchUri a (VPrim (PStr (uriOrValue x))).
Proof. reflexivity. Qed.

Lemma matches_query_text (x y : term) (t : triple num) :
  matches (VTerm x) (VTerm y) t
  = matches (VPrim (PStr (uriOrValue x))) (VPrim (PStr (uriOrValue y))) t.
Proof. by destruct t. Qed.

Lemma findTypeURIs_loop_query_text (st : store num) (x : term) (acc : gmap string bool) :
  findTypeURIs_loop st (VTerm x) acc
  = findTypeURIs_loop st (VPrim (PStr (uriOrValue x))) acc.
Proof.
  revert acc. induction st as [|[ts tp to] st IH]; intros acc; [done|].
  rewrite !findTypeURIs_loop_cons, matchUri_query_text.
  destruct (if matchUri ts _ then _ else _) as [acc'|]; simpl; [apply IH | done].
Qed.

(** The https form occurs in no string for which [search] finds nothing,
    and conversely. *)
Lemma search_None_iff (pat x : string) :
  Js.search pat x = None ↔ ∀ l r, x ≠ l +:+ pat +:+ r.
Proof.
  split.
  - intros Hnone l r ->. revert Hnone. induction l as [|c l IH].
    + by rewrite JsFacts.append_nil_l, JsFacts.search_head.
    + rewrite JsFacts.append_cons, JsFacts.search_unfold.
      destruct (Js.startsWith pat _); [done|].
      destruct (Js.search pat (l +:+ pat +:+ r)) as [[b a]|]; [done|].
      intros _. by apply IH.
  - intros Hno. destruct (Js.search pat x) as [[b a]|] eqn:E; [|done].
    apply JsFacts.search_sound in E. by apply Hno in E.
Qed.
End Reads.

(** X1. The three single-subject reads agree on every store and query:
    when [any] returns a term, that term is the first one [each] returns;
    when [each] returns nothing, [any] returns [null]; when [any] returns
    [null], so does [anyValue]; and when [any] returns a term whose [value]
    is not empty, [anyValue] returns that [value]. *)
Theorem reads_agree {num : Type} `{JsNumber num}
    (st : store num) (subject pred : jsval num) :
  (∀ x, any st subject pred = Some x → head (each st subject pred) = Some x)
  ∧ (each st subject pred = [] → any st subject pred = None)
  ∧ (any st subject pred = None → anyValue st subject pred = None)
  ∧ (∀ x, any st subject pred = Some x → value x ≠ "" →
       anyValue st subject pred = Some (value x)).
Proof.
  induction st as [|t st (IH1 & IH2 & IH3 & IH4)]; simpl; [done|].
  destruct (matches subject pred t); [|done].
  destruct (o t) as [x|v]; simpl.
  - split; [by intros x' [= <-]|]. split; [done|]. split; [done|].
    intros x' [= <-] Hx. unfold valueOrUri.
    by rewrite (proj2 (String.eqb_neq _ _) Hx).
  - destruct v as [| |b|n|x]; simpl; try done;
      (split; [by intros x' [= <-]|]; split; [done|]; split; [done|];
       by intros x' [= <-] _).
Qed.

(** X2. A query by a term and the query by the string [x.uri || x.value]
    of that term give the same result, for all four read operations and on
    every store: callers may pass a term or its URI string. *)
Theorem query_by_term_or_by_string {num : Type} `{JsNumber num}
    (st : store num) (x y : term) :
  let subjectText := VPrim (PStr (uriOrValue x)) in
  let predText := VPrim (PStr (uriOrValue y)) in
  anyValue st (VTerm x) (VTerm y) = anyValue st subjectText predText
  ∧ any st (VTerm x) (VTerm y) = any st subjectText predText
  ∧ each st (VTerm x) (VTerm y) = each st subjectText predText
  ∧ findTypeURIs st (VTerm x) = findTypeURIs st subjectText
  ∧ (∀ u, uriOrValue (sym u) = u).
Proof.
  intros subjectText predText. repeat split.
  - induction st as [|t st IH]; simpl; [done|].
    by rewrite matches_query_text, IH.
  - induction st as [|t st IH]; simpl; [done|].
    by rewrite matches_query_text, IH.
  - induction st as [|t st IH]; simpl; [done|].
    by rewrite matches_query_text, IH.
  - apply findTypeURIs_loop_query_text.
  - apply uriOrValue_sym.
Qed.

(** X3. Two URIs in which the text [https://schema.org/] does not occur
    match exactly when they are the same string: outside that namespace
    the comparison of the store is plain string equality. *)
Theorem exact_match_outside_schema_org {num : Type} `{JsNumber num} (a b : string) :
  (∀ l r, a ≠ l +:+ "https://schema.org/" +:+ r) →
  (∀ l r, b ≠ l +:+ "https://schema.org/" +:+ r) →
  matchUri (num:=num) (VTerm (sym a)) (VTerm (sym b)) = true ↔ a = b.
Proof.
  intros Ha%search_None_iff Hb%search_None_iff.
  rewrite matchUri_sym_sym, !normalizeStr_unfold, Ha, Hb. apply String.eqb_eq.
Qed.

(** The theorem at two predicates of another vocabulary. *)
Lemma exact_match_outside_schema_org_witness :
  matchUri (num:=Z) (VTerm (sym "http://xmlns.com/foaf/0.1/name"))
    (VTerm (sym "http://xmlns.com/foaf/0.1/nick")) = true
  ↔ "http://xmlns.com/foaf/0.1/name" = "http://xmlns.com/foaf/0.1/nick".
Proof.
  apply exact_match_outside_schema_org; apply search_None_iff; reflexivity.
Defined.

(** X4. Reading after [add]. A query sees the store as it was, followed by
    the object of the added triple when the triple matches the query (a
    term as it is, a raw scalar as a Literal, nothing for [null] and
    [undefined]). So a triple added under a subject and predicate that are
    terms or strings is returned last by [each] for that subject and
    predicate, it is what [any] returns when nothing matched before, and
    adding it twice returns it twice: the store does not deduplicate. *)
Theorem read_after_add {num : Type} `{JsNumber num}
    (st : store num) (subject pred object : jsval num) :
  termOrString subject → termOrString pred →
  (∀ s' p', each (add st subject pred object) s' p'
            = (each st s' p'
               ++ if matches s' p' (Triple subject pred object)
                  then option_list (returned object) else [])%list)
  ∧ each (add st subject pred object) subject pred
    = (each st subject pred ++ option_list (returned object))%list
  ∧ (Forall (λ t, matches subject pred t = false) st →
     any (add st subject pred object) subject pred = returned object)
  ∧ each (add (add st subject pred object) subject pred object) subject pred
    = (each st subject pred ++ option_list (returned object)
       ++ option_list (returned object))%list.
Proof.
  intros Hs Hp.
  assert (Hgen : ∀ st0 s' p', each (add st0 subject pred object) s' p'
            = (each st0 s' p'
               ++ if matches s' p' (Triple subject pred object)
                  then option_list (returned object) else [])%list).
  { intros st0 s' p'. unfold add. rewrite each_app.
    f_equal; simpl; destruct (matchUri subject s' && matchUri pred p'); try done;
      rewrite objectTerm_returned; by destruct (returned object). }
  assert (Hself : matches subject pred (Triple subject pred object) = true).
  { simpl. by rewrite !matchUri_refl. }
  split; [apply Hgen|]. split; [by rewrite Hgen, Hself|]. split.
  - intros Hst. unfold add. rewrite (any_app _ _ _ _ Hst). simpl.
    rewrite !matchUri_refl by done. simpl. apply objectTerm_returned.
  - by rewrite !Hgen, Hself, <- app_assoc.
Qed.

(** The theorem at a name added to an empty store. *)
Lemma read_after_add_witness :
  each (num:=Z)
    (add createStore (VTerm (sym "http://b/#me")) (VPrim (PStr "http://x/name"))
       (VPrim (PStr "Ada")))
    (VTerm (sym "http://b/#me")) (VPrim (PStr "http://x/name"))
  = [literal (PStr "Ada")].
Proof.
  refine (proj1 (proj2 (read_after_add (num:=Z) createStore (VTerm (sym "http://b/#me"))
            (VPrim (PStr "http://x/name")) (VPrim (PStr "Ada")) _ _))).
  - left. by eexists.
  - right. by eexists.
Defined.

(** X5. A query miss is a value, not a fault. When no triple of the store
    has a subject that matches, [findTypeURIs] returns the empty mapping,
    [anyValue] and [any] return [null] and [each] returns the empty
    sequence, whatever the predicates and objects of the stored triples
    are, [null] included: the subject is compared first. *)
Theorem query_miss_is_a_value {num : Type} `{JsNumber num}
    (st : store num) (subject : jsval num) :
  Forall (λ t, matchUri t.(s) subject = false) st →
  findTypeURIs st subject = Ok ∅
  ∧ ∀ pred, anyValue st subject pred = None ∧ any st subject pred = None
            ∧ each st subject pred = [].
Proof.
  intros Hst. split.
  - unfold findTypeURIs. generalize (∅ : gmap string bool).
    induction Hst as [|[ts tp to] st Ht _ IH]; intros acc; [done|].
    rewrite findTypeURIs_loop_cons. simpl in Ht. rewrite Ht. apply IH.
  - intros pred.
    assert (Hno : Forall (λ t, matches subject pred t = false) st).
    { eapply Forall_impl; [done|]. intros [ts tp to] Ht. simpl in *. by rewrite Ht. }
    split; [by apply anyValue_no_match|]. split; [|by apply each_no_match].
    rewrite <- (app_nil_r st). by rewrite any_app.
Qed.

(** The theorem at a store whose only triple has another subject, a
    [null] predicate and a [null] object. *)
Lemma query_miss_is_a_value_witness :
  findTypeURIs (num:=Z) [Triple (VTerm (sym "http://b/#a")) (VPrim PNull) (VPrim PNull)]
    (VTerm (sym "http://b/#b")) = Ok ∅.
Proof.
  refine (proj1 (query_miss_is_a_value (num:=Z)
            [Triple (VTerm (sym "http://b/#a")) (VPrim PNull) (VPrim PNull)]
            (VTerm (sym "http://b/#b")) _)).
  repeat constructor.
Defined.

(** * Further properties of the translator *)

Section Shape.
Context {num : Type} `{JsNumber num}.
Variable ctx : list (string * string).
Variable baseUri : string.

Lemma append_nonempty_r (a b : string) : b ≠ "" → a +:+ b ≠ "".
Proof.
  intros Hb E. apply (f_equal String.length) in E.
  rewrite JsFacts.length_append in E. destruct b; [done|]. simpl in E. lia.
Qed.

Lemma resolveType_nonempty (t : string) : t ≠ "" → resolveType t ctx ≠ "".
Proof.
  intros Ht. unfold resolveType. destruct (resolvePrefix t ctx) as [r|]; [|done].
  destruct (String.eqb r "") eqn:E; [done|]. by apply String.eqb_neq.
Qed.

Lemma addType_string (node : json num) (subject : term) (t : string) (st : store num) :
  get "@type" node = Some (JStr t) → t ≠ "" →
  addType ctx node subject st
  = Ok (add st (VTerm subject) (VTerm (sym RDF_TYPE)) (VTerm (sym (resolveType t ctx)))).
Proof.
  intros Hty Ht. unfold addType. rewrite Hty. simpl.
  by rewrite (eqb_empty_false _ Ht).
Qed.

Lemma resolveId_nonempty (node : json num) (u : string) :
  truthyAt "@id" node = true → resolveId baseUri node = Ok u → u ≠ "".
Proof.
  unfold truthyAt, resolveId. destruct (get "@id" node) as [[| | |x| |]|]; try done.
  cbn [truthy]. intros Hx%negb_true_iff%String.eqb_neq Heq.
  destruct (Js.startsWith "http" x); injection Heq as <-; [done|].
  by apply append_nonempty_r.
Qed.

Lemma asPrim_defined (v : json num) (x : prim num) : asPrim v = Some x → x ≠ PUndefined.
Proof. destruct v; simpl; intros [= <-]; done. Qed.

Lemma shape_link (subjectUri predUri u : string) :
  predUri ≠ "" → u ≠ "" →
  translated (num:=num)
    (Triple (VTerm (sym subjectUri)) (VTerm (sym predUri)) (VTerm (sym u))).
Proof.
  intros Hp Hu. split; [by eexists|]. split; [by eexists|]. left. by eexists.
Qed.

Lemma shape_raw (subjectUri predUri : string) (x : prim num) :
  predUri ≠ "" → x ≠ PUndefined →
  translated (Triple (VTerm (sym subjectUri)) (VTerm (sym predUri)) (VPrim x)).
Proof.
  intros Hp Hx. split; [by eexists|]. split; [by eexists|]. right. by exists x.
Qed.

Lemma shape_addType (node : json num) (subjectUri : string) :
  emits translated (addType ctx node (sym subjectUri)).
Proof.
  unfold addType. destruct (get "@type" node) as [ty|]; [|apply emits_skip].
  destruct (truthy ty) eqn:Hty; [|apply emits_skip].
  destruct ty as [| | |t| |]; try apply emits_throw. apply emits_add.
  apply shape_link; [done|]. apply resolveType_nonempty.
  by apply negb_true_iff, String.eqb_neq in Hty.
Qed.

Lemma shape_addItem (rec : json num → string → store num → result (store num))
    (subjectUri key predUri : string) (i : nat) (item : json num) :
  predUri ≠ "" → (∀ b, emits translated (rec item b)) →
  emits translated (addItem baseUri rec subjectUri (sym predUri) key i item).
Proof.
  intros Hne Hrec. unfold addItem.
  destruct (asPrim item) as [v|] eqn:Hv.
  { apply emits_add, shape_raw; [done|]. by eapply asPrim_defined. }
  destruct (truthyAt "@id" item) eqn:Hid; simpl.
  - destruct (resolveId baseUri item) as [u|] eqn:Hu; simpl; [|apply emits_throw].
    apply emits_add, shape_link; [done|]. by eapply resolveId_nonempty.
  - apply emits_after_add; [|done]. apply shape_link; [done|].
    by apply append_nonempty_r.
Qed.

Lemma shape_addEntry (rec : json num → string → store num → result (store num))
    (subjectUri key : string) (val : json num) :
  (∀ w, (size w ≤ size val)%nat → ∀ b, emits translated (rec w b)) →
  emits translated (addEntry ctx baseUri rec subjectUri key val).
Proof.
  intros Hrec. unfold addEntry.
  destruct (Js.startsWith "@" key); [apply emits_skip|].
  destruct (resolvePrefix key ctx) as [predUri|]; [|apply emits_skip].
  destruct (String.eqb predUri "") eqn:Hne; [apply emits_skip|].
  apply String.eqb_neq in Hne.
  destruct val as [|b|n|x|items|props]; simpl;
    try (by apply emits_add, shape_raw).
  - apply emits_forEachi, Forall_forall. intros item Hin j.
    apply shape_addItem; [done|]. intros b. apply Hrec.
    apply size_item in Hin. lia.
  - destruct (truthyAt "@id" (JObj props)) eqn:Hid.
    + destruct (resolveId baseUri (JObj props)) as [u|] eqn:Hu; simpl;
        [|apply emits_throw].
      apply emits_add, shape_link; [done|]. by eapply resolveId_nonempty.
    + apply emits_after_add; [|by apply Hrec]. apply shape_link; [done|].
      by apply append_nonempty_r.
Qed.

Lemma shape_addTriples (node : json num) (subjectUri : string) :
  emits translated (addTriples ctx baseUri node subjectUri).
Proof.
  revert subjectUri. induction node as [node IH] using json_size_ind.
  intros subjectUri.
  assert (Hrec : ∀ val, size val < size node →
            ∀ key, emits translated
                     (addEntry ctx baseUri (addTriples ctx baseUri) subjectUri key val)).
  { intros val Hval key. apply shape_addEntry. intros w Hw b. apply IH. lia. }
  eapply emits_ext; [intros st; apply addTriples_unfold|].
  apply (emits_bind _ (addType ctx _ _)); [apply shape_addType|].
  destruct node as [| | |x|items|props]; try apply emits_skip.
  - apply emits_forEachi, Forall_forall. intros val _ j.
    apply shape_addEntry. intros; apply emits_skip.
  - apply emits_forEachi, Forall_forall. intros val Hin j.
    apply Hrec. by apply size_item.
  - apply emits_forEach, Forall_forall. intros [key val] Hin.
    apply Hrec. by apply size_prop in Hin.
Qed.
End Shape.

(** X6. The translator only appends. Translating into a store that already
    holds triples gives the same root and leaves those triples in place, in
    order, followed by exactly the triples that the translation into an
    empty store produces; it throws on the one exactly when it throws on
    the other. *)
Theorem translation_appends {num : Type} `{JsNumber num}
    (D : json num) (baseUri : string) (st : store num) :
  parseJsonLdToStore D baseUri st =
    match parseJsonLdToStore D baseUri createStore with
    | Ok (root, out) => Ok (root, (st ++ out)%list)
    | TypeError => TypeError
    end.
Proof.
  assert (Hgen :
    (rootId ← rootIdOf D baseUri;
     st' ← addTriples (buildContext D) baseUri D rootId st;
     Ok (sym rootId, st')) =
    match (rootId ← rootIdOf D baseUri;
           st' ← addTriples (buildContext D) baseUri D rootId createStore;
           Ok (sym rootId, st')) with
    | Ok (root, out) => Ok (root, (st ++ out)%list)
    | TypeError => TypeError
    end).
  { destruct (rootIdOf D baseUri) as [rootId|]; [|done]. simpl.
    rewrite (appends_addTriples (buildContext D) baseUri D rootId st).
    unfold createStore. by destruct (addTriples _ _ _ _ []). }
  by destruct D.
Qed.

(** X7. The shape of what the translator stores. Every triple that a
    completed translation adds has a named node as subject, which is the
    root or a blank node whose URI extends the root URI by an underscore
    and more; a named node with a non-empty URI as predicate; and as object
    either a named node with a non-empty URI or a primitive of the document
    (a string, a number, a boolean or [null]), never [undefined] and never
    a Literal. *)
Theorem translated_triples_shape {num : Type} `{JsNumber num}
    (D : json num) (baseUri : string) (st st' : store num) (root : term) :
  parseJsonLdToStore D baseUri st = Ok (root, st') →
  ∃ rootId out,
    root = sym rootId ∧ st' = (st ++ out)%list
    ∧ Forall (λ t, translated t ∧ ownOrBelow rootId t) out.
Proof.
  intros (rootId & _ & -> & Hrun)%parseJsonLdToStore_root.
  destruct (appends_Ok _ _ _ (appends_addTriples _ _ _ _) Hrun) as (out & Hout & ->).
  exists rootId, out. split; [done|]. split; [done|].
  apply Forall_and. split.
  - by apply (proj2 (shape_addTriples (buildContext D) baseUri D rootId)).
  - by apply (proj2 (emits_addTriples (buildContext D) baseUri D rootId)).
Qed.

(** The theorem at [{"@type": "Person", "tags": ["a", null]}]. *)
Lemma translated_triples_shape_witness :
  ∃ rootId out,
    sym "http://b/#thing" = sym rootId
    ∧ [Triple (VTerm (sym "http://b/#thing")) (VTerm (sym RDF_TYPE)) (VTerm (sym "Person"));
       Triple (VTerm (sym "http://b/#thing")) (VTerm (sym "tags")) (VPrim (PStr "a"));
       Triple (VTerm (sym "http://b/#thing")) (VTerm (sym "tags")) (VPrim PNull)]
      = ([] ++ out)%list
    ∧ Forall (λ t : triple Z, translated t ∧ ownOrBelow rootId t) out.
Proof.
  exact (translated_triples_shape (num:=Z)
           (JObj [("@type", JStr "Person"); ("tags", JArr [JStr "a"; JNull])])
           "http://b/" [] _ _ eq_refl).
Defined.

Section RootReads.
Context {num : Type} `{JsNumber num}.
Variable ctx : list (string * string).
Variable baseUri : string.

(** What [addType] leaves when it returns: nothing for a falsy ["@type"],
    one rdf:type triple for a non-empty string. *)
Lemma addType_cases (node : json num) (subjectUri : string) (st1 : store num) :
  addType ctx node (sym subjectUri) [] = Ok st1 →
  (truthyAt "@type" node = false ∧ st1 = [])
  ∨ (∃ t, get "@type" node = Some (JStr t) ∧ t ≠ ""
          ∧ st1 = [Triple (VTerm (sym subjectUri)) (VTerm (sym RDF_TYPE))
                     (VTerm (sym (resolveType t ctx)))]).
Proof.
  destruct (truthyAt "@type" node) eqn:Ht.
  - unfold truthyAt in Ht. destruct (get "@type" node) as [ty|] eqn:Hty; [|done].
    destruct ty as [| | |t| |]; try (unfold addType; by rewrite Hty, Ht).
    apply negb_true_iff, String.eqb_neq in Ht.
    rewrite (addType_string ctx _ _ t _ Hty Ht). intros [= <-]. right. by exists t.
  - rewrite addType_falsy by done. intros [= <-]. by left.
Qed.

(** The parts of the store of a translated object: the type triple, then
    the triples of the properties before a given one, of that one, and of
    those after it. *)
Lemma translate_object_split (rootId k : string) (pre post : list (string * json num))
    (val : json num) (st' : store num) :
  let f := λ '(key, w), addEntry ctx baseUri (addTriples ctx baseUri) rootId key w in
  addTriples ctx baseUri (JObj (pre ++ (k, val) :: post)) rootId [] = Ok st' →
  ∃ st1 out1 out2 out3,
    st' = (st1 ++ out1 ++ out2 ++ out3)%list
    ∧ addType ctx (JObj (pre ++ (k, val) :: post)) (sym rootId) [] = Ok st1
    ∧ forEach f pre [] = Ok out1
    ∧ addEntry ctx baseUri (addTriples ctx baseUri) rootId k val [] = Ok out2
    ∧ forEach f post [] = Ok out3.
Proof.
  intros f Hrun. rewrite addTriples_unfold in Hrun.
  destruct (addType ctx _ (sym rootId) []) as [st1|] eqn:Ety; [|done].
  cbn [mbind result_bind] in Hrun. fold f in Hrun. rewrite forEach_app in Hrun.
  assert (Hf : ∀ kv, appends (f kv)).
  { intros [key w]. apply appends_addEntry. intros w' _ b. apply appends_addTriples. }
  assert (Hfs : ∀ l, appends (forEach f l)).
  { intros l. apply appends_forEach, Forall_forall. intros kv _. apply Hf. }
  destruct (forEach f pre st1) as [st2|] eqn:Epre; [|done].
  cbn [mbind result_bind forEach] in Hrun.
  destruct (f (k, val) st2) as [st3|] eqn:Ek; [|done].
  cbn [mbind result_bind] in Hrun.
  apply (appends_Ok _ _ _ (Hfs pre)) in Epre as (out1 & Eout1 & ->).
  apply (appends_Ok _ _ _ (Hf (k, val))) in Ek as (out2 & Eout2 & ->).
  apply (appends_Ok _ _ _ (Hfs post)) in Hrun as (out3 & Eout3 & ->).
  exists st1, out1, out2, out3. rewrite <- !app_assoc. done.
Qed.

(** The triples of the properties of a node, by the property they come
    from. *)
Lemma emits_properties (rootId : string) (props : list (string * json num)) :
  emits (λ t, ∃ k' v', (k', v') ∈ props ∧ linkOrBelow ctx rootId k' t)
    (forEach (λ '(key, w), addEntry ctx baseUri (addTriples ctx baseUri) rootId key w)
       props).
Proof.
  apply emits_forEach, Forall_forall. intros [k' v'] Hin.
  eapply emits_weaken; [|apply emits_addEntry].
  - intros t Ht. by exists k', v'.
  - intros w _ b. apply emits_addTriples.
Qed.

Lemma below_subject_no_match (subjectUri : string) (t : triple num) :
  below subjectUri t → matchUri t.(s) (VTerm (sym subjectUri)) = false.
Proof.
  intros [z ->]. rewrite matchUri_sym_sym.
  by rewrite (proj2 (String.eqb_neq _ _) (normalizeStr_below subjectUri z)).
Qed.

Lemma isRdfType_sym (P : string) :
  P ≠ "" → isRdfType (num:=num) (VTerm (sym P)) = Ok (String.eqb (normalizeStr P) RDF_TYPE).
Proof. intros HP. unfold isRdfType. simpl. by rewrite (eqb_empty_false _ HP). Qed.
End RootReads.

(** X8. The types of the root after a translation. Let an object be
    translated into an empty store, and let none of its properties resolve
    to a predicate that is rdf:type (up to the scheme of [schema.org]).
    Then [findTypeURIs(root)] returns a mapping whose values are all [true].
    When the object has a non-empty string ["@type"], the keys of the
    mapping are exactly the resolved type URI and, if that URI is under
    [schema.org], its counterpart under the other scheme (the key
    [__proto__] excepted); the types of nested nodes are not among them.
    When the ["@type"] is absent or falsy, the mapping is empty. *)
Theorem root_types_after_translation {num : Type} `{JsNumber num}
    (props : list (string * json num)) (baseUri : string) (root : term) (st' : store num) :
  let D := JObj props in
  let ctx := buildContext D in
  parseJsonLdToStore D baseUri createStore = Ok (root, st') →
  (∀ k' v' P', (k', v') ∈ props → resolvePrefix k' ctx = Some P' →
     normalizeStr P' ≠ RDF_TYPE) →
  ∃ m, findTypeURIs st' (VTerm root) = Ok m
    ∧ (∀ k b, m !! k = Some b → b = true)
    ∧ (∀ t, lookupKey "@type" props = Some (JStr t) → t ≠ "" →
         ∀ k, is_Some (m !! k) ↔ k ≠ "__proto__" ∧ recorded (resolveType t ctx) k)
    ∧ (truthyAt "@type" D = false → m = ∅).
Proof.
  intros D ctx Hrun Hother.
  apply parseJsonLdToStore_root in Hrun as (rootId & _ & -> & Hrun).
  unfold createStore in Hrun. subst D ctx.
  set (ctx := buildContext (JObj props)) in *.
  rewrite addTriples_unfold in Hrun.
  destruct (addType ctx (JObj props) (sym rootId) []) as [st1|] eqn:Ety; [|done].
  cbn [mbind result_bind] in Hrun.
  destruct (emits_properties ctx baseUri rootId props) as [Happ Hout].
  apply (appends_Ok _ _ _ Happ) in Hrun as (out & Eout & ->).
  specialize (Hout _ Eout). rewrite Forall_forall in Hout.
  assert (Hlink : ∀ t, t ∈ out →
            matchUri t.(s) (VTerm (sym rootId)) = true → isRdfType t.(p) = Ok false).
  { intros [ts tp to] Hin Hs.
    destruct (Hout _ Hin) as (k' & v' & Hkv & [[_ (P' & HP' & Hne & Hp)] | Hb]).
    - simpl in Hp. subst tp. cbn [p]. rewrite isRdfType_sym by done.
      by rewrite (proj2 (String.eqb_neq _ _) (Hother k' v' P' Hkv HP')).
    - apply below_subject_no_match in Hb. by rewrite Hs in Hb. }
  assert (Hst1 : ∀ t, t ∈ st1 → ∃ ty, t = Triple (VTerm (sym rootId)) (VTerm (sym RDF_TYPE))
                                              (VTerm (sym ty))).
  { intros t Hin. apply addType_cases in Ety as [[_ ->] | (ty & _ & _ & ->)].
    - by apply elem_of_nil in Hin.
    - apply list_elem_of_singleton in Hin as ->. by eexists. }
  assert (Hread : Forall (readableType (VTerm (sym rootId))) (st1 ++ out)%list).
  { apply Forall_forall. intros t [Hin|Hin]%elem_of_app Hs.
    - destruct (Hst1 t Hin) as [ty ->]. split; [split; discriminate|].
      intros _. left. by eexists.
    - rewrite (Hlink t Hin Hs). split; [|done].
      destruct (Hout _ Hin) as (k' & v' & _ & [[_ (P' & _ & _ & Hp)] | Hb]).
      + rewrite Hp. split; discriminate.
      + apply below_subject_no_match in Hb. by rewrite Hs in Hb. }
  destruct (findTypeURIs_loop_spec _ _ ∅ Hread) as (m & Hm & Hk & Hb).
  assert (Htrue : ∀ k b, m !! k = Some b → b = true).
  { apply Hb. intros k b. by rewrite lookup_empty. }
  assert (Hgives : ∀ t u, t ∈ (st1 ++ out)%list → givesType (VTerm (sym rootId)) t u →
            t ∈ st1).
  { intros t u [Hin|Hin]%elem_of_app (Hs & Hp & _); [done|].
    rewrite (Hlink t Hin Hs) in Hp. done. }
  exists m. split; [exact Hm|]. split; [exact Htrue|]. split.
  - intros t Hty Ht k.
    assert (st1 = [Triple (VTerm (sym rootId)) (VTerm (sym RDF_TYPE))
                     (VTerm (sym (resolveType t ctx)))]) as Est1.
    { apply addType_cases in Ety as [[Hf _] | (t' & Hty' & _ & ->)].
      - unfold truthyAt in Hf. cbn [get] in Hf. rewrite Hty in Hf.
        cbn [truthy] in Hf. by rewrite (eqb_empty_false _ Ht) in Hf.
      - cbn [get] in Hty'. rewrite Hty in Hty'.
        by injection Hty' as <-. }
    split.
    + intros [b Hkb]. pose proof (Htrue _ _ Hkb) as ->.
      apply Hk in Hkb as [Hkb | (Hp & t0 & u & Hin & Hg & Hr)];
        [by rewrite lookup_empty in Hkb|].
      split; [done|]. pose proof (Hgives _ _ Hin Hg) as Hin1.
      rewrite Est1 in Hin1. apply list_elem_of_singleton in Hin1 as ->.
      destruct Hg as (_ & _ & Hu & _). simpl in Hu. by injection Hu as <-.
    + intros [Hp Hr]. exists true. apply Hk. right. split; [done|].
      eexists _, (resolveType t ctx). split; [|split; [|exact Hr]].
      * rewrite Est1. apply elem_of_app. left. apply list_elem_of_here.
      * split; [apply matchUri_sym_refl|]. split; [reflexivity|].
        split; [reflexivity|]. by apply resolveType_nonempty.
  - intros Hf. apply map_empty. intros k.
    destruct (m !! k) as [b|] eqn:Hkb; [|done].
    pose proof (Htrue _ _ Hkb) as ->.
    apply Hk in Hkb as [Hkb | (_ & t0 & u & Hin & Hg & _)];
      [by rewrite lookup_empty in Hkb|].
    pose proof (Hgives _ _ Hin Hg) as Hin1.
    apply addType_cases in Ety as [[_ ->] | (t' & Hty' & Ht' & _)].
    + by apply elem_of_nil in Hin1.
    + unfold truthyAt in Hf. rewrite Hty' in Hf. cbn [truthy] in Hf.
      by rewrite (eqb_empty_false _ Ht') in Hf.
Qed.

(** The theorem at a typed person whose context maps the prefix [schema]. *)
Lemma root_types_after_translation_witness :
  ∃ m, findTypeURIs (num:=Z)
         [Triple (VTerm (sym "http://b/#thing")) (VTerm (sym RDF_TYPE))
            (VTerm (sym "https://schema.org/Person"));
          Triple (VTerm (sym "http://b/#thing")) (VTerm (sym "https://schema.org/name"))
            (VPrim (PStr "Ada"))]
         (VTerm (sym "http://b/#thing")) = Ok m
       ∧ is_Some (m !! "http://schema.org/Person").
Proof.
  pose (props := [("@context", JObj [("schema", JStr "https://schema.org/")]);
                  ("@type", JStr "schema:Person"); ("schema:name", @JStr Z "Ada")]).
  assert (Hrun : parseJsonLdToStore (JObj props) "http://b/" createStore
            = Ok (sym "http://b/#thing",
                  [Triple (VTerm (sym "http://b/#thing")) (VTerm (sym RDF_TYPE))
                     (VTerm (sym "https://schema.org/Person"));
                   Triple (VTerm (sym "http://b/#thing"))
                     (VTerm (sym "https://schema.org/name")) (VPrim (PStr "Ada"))]))
    by (vm_compute; reflexivity).
  assert (Ectx : buildContext (JObj props) = [("schema", "https://schema.org/")])
    by (vm_compute; reflexivity).
  destruct (root_types_after_translation (num:=Z) props "http://b/" _ _ Hrun)
    as (m & Hm & _ & Hk & _).
  - intros k' v' P' Hin Hres. rewrite Ectx in Hres. unfold props in Hin.
    repeat (apply elem_of_cons in Hin as [[= -> ->] | Hin]).
    + replace (resolvePrefix "@context" [("schema", "https://schema.org/")])
        with (@None string) in Hres by (vm_compute; reflexivity). discriminate Hres.
    + replace (resolvePrefix "@type" [("schema", "https://schema.org/")])
        with (@None string) in Hres by (vm_compute; reflexivity). discriminate Hres.
    + replace (resolvePrefix "schema:name" [("schema", "https://schema.org/")])
        with (Some "https://schema.org/name") in Hres by (vm_compute; reflexivity).
      injection Hres as <-. vm_compute. discriminate.
    + by apply elem_of_nil in Hin.
  - exists m. split; [exact Hm|].
    apply (Hk "schema:Person" eq_refl); [discriminate|].
    split; [discriminate|]. right; right. exists "Person". split; [|reflexivity].
    rewrite Ectx. vm_compute. reflexivity.
Defined.

Section RoundTrip.
Context {num : Type} `{JsNumber num}.

(** In the store of a translated object, [anyValue] for the root and a
    predicate [P] is decided by the first property of the root whose
    predicate matches [P]. *)
Lemma anyValue_of_property (ctx : list (string * string)) (baseUri rootId k P : string)
    (pre post : list (string * json num)) (val : json num)
    (out : store num) (st' : store num) :
  addTriples ctx baseUri (JObj (pre ++ (k, val) :: post)) rootId [] = Ok st' →
  (∀ k' v' P', (k', v') ∈ pre →
     resolvePrefix k' ctx = Some P' → P' ≠ "" →
     matchUri (num:=num) (VTerm (sym P')) (VTerm (sym P)) = false) →
  (truthyAt "@type" (JObj (pre ++ (k, val) :: post)) = true →
   matchUri (num:=num) (VTerm (sym RDF_TYPE)) (VTerm (sym P)) = false) →
  ∃ out2 out3,
    addEntry ctx baseUri (addTriples ctx baseUri) rootId k val [] = Ok out2
    ∧ anyValue st' (VTerm (sym rootId)) (VTerm (sym P))
      = anyValue (out2 ++ out3)%list (VTerm (sym rootId)) (VTerm (sym P)).
Proof.
  intros Hrun Hother Htype.
  destruct (translate_object_split ctx baseUri rootId k pre post val st' Hrun)
    as (st1 & out1 & out2 & out3 & -> & Ety & Eout1 & Eout2 & _).
  exists out2, out3. split; [done|].
  set (Qnm := λ t : triple num, matches (VTerm (sym rootId)) (VTerm (sym P)) t = false).
  assert (Hst1 : Forall Qnm st1).
  { apply addType_cases in Ety as [[_ ->] | (t & Hty & Ht & ->)]; [done|].
    constructor; [|done]. unfold Qnm, matches. rewrite Htype; [apply andb_false_r|].
    unfold truthyAt. rewrite Hty. cbn [truthy]. by rewrite (eqb_empty_false _ Ht). }
  assert (Hout1 : Forall Qnm out1).
  { revert Eout1. apply emits_forEach, Forall_forall. intros [k' v'] Hin.
    eapply emits_weaken; [|apply emits_addEntry].
    - intros [ts tp to] [[Hs (P' & HP' & Hne & Hp)] | Hb].
      + simpl in Hs, Hp. subst ts tp. unfold Qnm, matches.
        rewrite (Hother k' v' P' Hin HP' Hne). apply andb_false_r.
      + by apply below_no_match.
    - intros w _ b. apply emits_addTriples. }
  rewrite (anyValue_app st1) by exact Hst1. by rewrite (anyValue_app out1) by exact Hout1.
Qed.
End RoundTrip.

(** X9. Round trip of a property of the root. Let an object be translated
    into an empty store, let the key of one of its properties resolve to a
    non-empty predicate [P], let no property before it resolve to a
    predicate that matches [P], and let [P] not match rdf:type if the
    object has a type. Then [anyValue(root, P)] is [String(v)] when the
    value of the property is the scalar [v] (a string, a number or a
    boolean), [null] when it is [null], the resolved URI when it is an
    object with a non-empty string ["@id"], and the URI of the blank node
    when it is an object without a truthy ["@id"]. *)
Theorem property_round_trip {num : Type} `{JsNumber num}
    (pre post : list (string * json num)) (baseUri k P : string) (val : json num)
    (root : term) (st' : store num) :
  let D := JObj (pre ++ (k, val) :: post) in
  let ctx := buildContext D in
  parseJsonLdToStore D baseUri createStore = Ok (root, st') →
  resolvePrefix k ctx = Some P → P ≠ "" →
  (∀ k' v' P', (k', v') ∈ pre →
     resolvePrefix k' ctx = Some P' → P' ≠ "" →
     matchUri (num:=num) (VTerm (sym P')) (VTerm (sym P)) = false) →
  (truthyAt "@type" D = true →
   matchUri (num:=num) (VTerm (sym RDF_TYPE)) (VTerm (sym P)) = false) →
  (∀ v, asPrim val = Some v → v ≠ PNull →
     anyValue st' (VTerm root) (VTerm (sym P)) = Some (String_ v))
  ∧ (val = JNull → anyValue st' (VTerm root) (VTerm (sym P)) = None)
  ∧ (∀ props x, val = JObj props → lookupKey "@id" props = Some (JStr x) → x ≠ "" →
       anyValue st' (VTerm root) (VTerm (sym P))
       = Some (if Js.startsWith "http" x then x else baseUri +:+ x))
  ∧ (∀ props, val = JObj props → truthyAt "@id" val = false →
       anyValue st' (VTerm root) (VTerm (sym P))
       = Some (value root +:+ "_" +:+ Js.lastSegment k)).
Proof.
  intros D ctx Hrun Hres Hne Hother Htype.
  apply parseJsonLdToStore_root in Hrun as (rootId & _ & -> & Hrun).
  unfold createStore in Hrun. subst D ctx.
  set (ctx := buildContext (JObj (pre ++ (k, val) :: post))) in *.
  destruct (anyValue_of_property ctx baseUri rootId k P pre post val [] st'
              Hrun Hother Htype) as (out2 & out3 & Eout2 & ->).
  rewrite (addEntry_resolved _ _ _ _ _ _ _ _ Hres Hne) in Eout2.
  assert (Hhead : ∀ to rest,
            anyValue ((Triple (VTerm (sym rootId)) (VTerm (sym P)) to :: rest) ++ out3)%list
              (VTerm (sym rootId)) (VTerm (sym P)) = objectText to).
  { intros to rest. apply (anyValue_first [] _ (Triple _ _ to)); [done|].
    unfold matches. by rewrite !matchUri_sym_refl. }
  assert (Hsym : ∀ u, u ≠ "" → objectText (num:=num) (VTerm (sym u)) = Some u).
  { intros u Hu. simpl. unfold valueOrUri. simpl. by rewrite (eqb_empty_false _ Hu). }
  split; [|split; [|split]].
  - intros v Hv Hnull.
    destruct val as [|b|n|x|items|props]; cbn [asPrim] in Hv, Eout2; try done;
      injection Hv as <-; injection Eout2 as <-; unfold add; by rewrite app_nil_l, Hhead.
  - intros ->. cbn [asPrim] in Eout2. injection Eout2 as <-.
    unfold add. by rewrite app_nil_l, Hhead.
  - intros props x -> Hid Hx. cbn [asPrim] in Eout2.
    rewrite (truthyAt_string _ _ Hid Hx), (resolveId_string _ _ _ Hid) in Eout2.
    cbn [mbind result_bind] in Eout2. injection Eout2 as <-.
    unfold add. rewrite app_nil_l, Hhead. apply Hsym.
    destruct (Js.startsWith "http" x); [done|]. by apply append_nonempty_r.
  - intros props -> Hid. cbn [asPrim] in Eout2. rewrite Hid in Eout2.
    apply (appends_Ok _ _ _ (appends_addTriples _ _ _ _)) in Eout2 as (out & _ & ->).
    unfold add. rewrite app_nil_l. change ([?t] ++ out)%list with (t :: out).
    rewrite Hhead. apply Hsym. by apply append_nonempty_r.
Qed.

(** The theorem at the name of a person. *)
Lemma property_round_trip_witness :
  anyValue (num:=Z)
    [Triple (VTerm (sym "http://b/#thing")) (VTerm (sym RDF_TYPE))
       (VTerm (sym "https://schema.org/Person"));
     Triple (VTerm (sym "http://b/#thing")) (VTerm (sym "https://schema.org/name"))
       (VPrim (PStr "Ada"))]
    (VTerm (sym "http://b/#thing")) (VTerm (sym "https://schema.org/name"))
  = Some "Ada".
Proof.
  pose (pre := [("@context", JObj [("schema", JStr "https://schema.org/")]);
                ("@type", @JStr Z "schema:Person")]).
  assert (Hrun : parseJsonLdToStore (JObj (pre ++ [("schema:name", JStr "Ada")]))
                   "http://b/" createStore
            = Ok (sym "http://b/#thing",
                  [Triple (VTerm (sym "http://b/#thing")) (VTerm (sym RDF_TYPE))
                     (VTerm (sym "https://schema.org/Person"));
                   Triple (VTerm (sym "http://b/#thing"))
                     (VTerm (sym "https://schema.org/name")) (VPrim (PStr "Ada"))]))
    by (vm_compute; reflexivity).
  assert (Ectx : buildContext (JObj (pre ++ [("schema:name", @JStr Z "Ada")]))
                 = [("schema", "https://schema.org/")])
    by (vm_compute; reflexivity).
  refine (proj1 (property_round_trip (num:=Z) pre [] "http://b/" "schema:name"
            "https://schema.org/name" (JStr "Ada") _ _ Hrun _ _ _ _)
            (PStr "Ada") eq_refl _).
  - rewrite Ectx. vm_compute. reflexivity.
  - discriminate.
  - intros k' v' P' Hin Hres. rewrite Ectx in Hres. unfold pre in Hin.
    repeat (apply elem_of_cons in Hin as [[= -> ->] | Hin]).
    + replace (resolvePrefix "@context" [("schema", "https://schema.org/")])
        with (@None string) in Hres by (vm_compute; reflexivity). discriminate Hres.
    + replace (resolvePrefix "@type" [("schema", "https://schema.org/")])
        with (@None string) in Hres by (vm_compute; reflexivity). discriminate Hres.
    + by apply elem_of_nil in Hin.
  - intros _. vm_compute. reflexivity.
  - discriminate.
Defined.

Section Prefixes.
Context {num : Type} `{JsNumber num}.

Lemma contains_cons (c x : ascii) (r : string) :
  contains c (String x r) = Ascii.eqb c x || contains c r.
Proof. reflexivity. Qed.


(** A replacement text without a dollar sign stands for itself. *)
Lemma getSubstitution_plain (matched before after repl : string) :
  contains "$" repl = false → Js.getSubstitution matched before after repl = repl.
Proof.
  induction repl as [|c rest IH]; [done|]. rewrite contains_cons.
  intros [Hc Hrest]%orb_false_iff. cbn [Js.getSubstitution].
  rewrite Ascii.eqb_sym, Hc. by rewrite IH.
Qed.

Lemma expandPrefix_app (key : string) (ctx1 ctx2 : list (string * string)) :
  Forall (λ pb, Js.startsWith (pb.1 +:+ ":") key = false) ctx1 →
  expandPrefix key (ctx1 ++ ctx2)%list = expandPrefix key ctx2.
Proof.
  induction 1 as [|[prefix base] l Hx _ IH]; simpl in *; [done|]. by rewrite Hx.
Qed.


Lemma lookupKey_app_other (k0 k : string) (v : json num)
    (pre post : list (string * json num)) :
  k0 ≠ k →
  lookupKey k0 (pre ++ (k, v) :: post)%list = lookupKey k0 (pre ++ post)%list.
Proof.
  intros Hk. induction pre as [|[k' v'] pre IH]; simpl.
  - by rewrite (proj2 (String.eqb_neq _ _) (not_eq_sym Hk)).
  - by rewrite IH.
Qed.
End Prefixes.

(** X10. Prefix expansion. A key [prefix:local] that does not start with an
    at sign is resolved by the first entry of the context whose prefix
    matches it; when the expansion base of that entry has no dollar sign,
    the result is the base followed by the local name, which is the URI of
    the term that [Namespace(base)(local)] builds. *)
Theorem prefix_expansion (ctx1 ctx2 : list (string * string))
    (prefix base local : string) :
  Js.startsWith "@" (prefix +:+ ":" +:+ local) = false →
  Forall (λ pb, Js.startsWith (pb.1 +:+ ":") (prefix +:+ ":" +:+ local) = false) ctx1 →
  contains "$" base = false →
  resolvePrefix (prefix +:+ ":" +:+ local) (ctx1 ++ (prefix, base) :: ctx2)
  = Some (base +:+ local)
  ∧ Namespace base local = sym (base +:+ local).
Proof.
  intros Hat Hctx Hbase. split; [|done]. unfold resolvePrefix.
  rewrite Hat, (expandPrefix_app _ _ _ Hctx). cbn [expandPrefix].
  rewrite <- JsFacts.append_assoc, JsFacts.startsWith_append.
  unfold Js.replace. rewrite JsFacts.search_head.
  by rewrite getSubstitution_plain, JsFacts.append_nil_l.
Qed.

(** The theorem at [schema:name] under a context that lists [foaf] first. *)
Lemma prefix_expansion_witness :
  resolvePrefix ("schema" +:+ ":" +:+ "name")
    ([("foaf", "http://xmlns.com/foaf/0.1/")]
     ++ ("schema", "http://schema.org/") :: [("s", "http://s/")])
  = Some ("http://schema.org/" +:+ "name")
  ∧ Namespace "http://schema.org/" "name" = sym ("http://schema.org/" +:+ "name").
Proof.
  apply prefix_expansion; [reflexivity | | reflexivity].
  repeat constructor.
Defined.

(** X11. The context map. When ["@context"] is absent or is anything but an
    object (an array, a string, a number, a boolean, [null]), the context is
    empty. When it is an object, the context holds, in the order of the
    object, the entries whose value is a string, those under the key
    [__proto__] excepted; entries with any other value are left out. *)
Theorem context_of_document {num : Type} `{JsNumber num} (D : json num) :
  ((∀ entries, get "@context" D ≠ Some (JObj entries)) → buildContext D = [])
  ∧ (∀ entries, get "@context" D = Some (JObj entries) → NoDup entries.*1 →
       buildContext D = omap contextEntry entries).
Proof.
  split.
  - intros Hno. unfold buildContext.
    destruct (get "@context" D) as [[| | | | |entries]|]; try done;
      try by destruct (truthy _).
    by destruct (Hno entries).
  - intros entries Hctx Hnodup. unfold buildContext. rewrite Hctx. clear Hctx.
    cbn [truthy].
    set (step := λ (ctx : list (string * string)) '(k, v),
                   match v with
                   | JStr b => setContext k b ctx
                   | _ => ctx
                   end : list (string * string)).
    assert (Hassign : ∀ k b (acc : list (string * string)),
              k ∉ acc.*1 → assign k b acc = (acc ++ [(k, b)])%list).
    { intros k b acc. induction acc as [|[k' b'] acc IH]; [done|].
      rewrite fmap_cons, not_elem_of_cons. intros [Hk Hacc]. simpl in Hk |- *.
      rewrite (proj2 (String.eqb_neq k' k) (not_eq_sym Hk)). by rewrite IH. }
    assert (Hfold : ∀ acc : list (string * string),
              (∀ k, k ∈ acc.*1 → k ∉ entries.*1) →
              fold_left step entries acc = (acc ++ omap contextEntry entries)%list).
    { induction entries as [|[k v] entries IH]; intros acc Hacc;
        [by rewrite app_nil_r|].
      apply NoDup_cons in Hnodup as [Hk Hnodup]. cbn [fold_left].
      assert (Hrest : ∀ k', k' ∈ acc.*1 → k' ∉ entries.*1).
      { intros k' Hk' Hin. apply (Hacc k' Hk'). rewrite fmap_cons. by right. }
      assert (Hfresh : k ∉ acc.*1).
      { intros Hin. apply (Hacc k Hin). rewrite fmap_cons. by left. }
      destruct v as [| | |b| |]; cbn [step omap list_omap contextEntry fst snd];
        try (apply IH; done).
      unfold setContext. destruct (String.eqb k "__proto__"); [apply IH; done|].
      rewrite Hassign by done. rewrite IH; [by rewrite <- app_assoc|done|].
      intros k'. rewrite fmap_app, elem_of_app. cbn [fmap list_fmap fst].
      rewrite list_elem_of_singleton.
      intros [Hk' | ->]; [by apply Hrest | done]. }
    rewrite (Hfold []); [done|]. intros k Hk. by apply elem_of_nil in Hk.
Qed.

(** X12. Keyword entries are inert. A property whose key starts with an at
    sign and is none of ["@type"], ["@id"] and ["@context"] (["@view"], for
    one) changes nothing: the translator returns the same root and the same
    store, or throws alike, with and without it. *)
Theorem keyword_entries_are_ignored {num : Type} `{JsNumber num}
    (pre post : list (string * json num)) (k : string) (v : json num)
    (baseUri : string) (st : store num) :
  Js.startsWith "@" k = true → k ≠ "@type" → k ≠ "@id" → k ≠ "@context" →
  parseJsonLdToStore (JObj (pre ++ (k, v) :: post)) baseUri st
  = parseJsonLdToStore (JObj (pre ++ post)) baseUri st.
Proof.
  intros Hat Hty Hid Hctx.
  assert (Hc : buildContext (JObj (pre ++ (k, v) :: post))
               = buildContext (JObj (pre ++ post))).
  { unfold buildContext. cbn [get]. by rewrite (lookupKey_app_other _ k v). }
  assert (Hr : rootIdOf (JObj (pre ++ (k, v) :: post)) baseUri
               = rootIdOf (JObj (pre ++ post)) baseUri).
  { unfold rootIdOf. cbn [get]. by rewrite (lookupKey_app_other _ k v). }
  assert (Ha : ∀ ctx rootId,
            addTriples ctx baseUri (JObj (pre ++ (k, v) :: post)) rootId st
            = addTriples ctx baseUri (JObj (pre ++ post)) rootId st).
  { intros ctx rootId. rewrite !addTriples_unfold.
    assert (addType ctx (JObj (pre ++ (k, v) :: post)) (sym rootId) st
            = addType ctx (JObj (pre ++ post)) (sym rootId) st) as ->.
    { unfold addType. cbn [get]. by rewrite (lookupKey_app_other _ k v). }
    destruct (addType ctx (JObj (pre ++ post)) (sym rootId) st) as [st1|]; [|done].
    cbn [mbind result_bind]. rewrite !forEach_app. cbn [forEach].
    destruct (forEach _ pre st1) as [st2|]; [|done]. cbn [mbind result_bind].
    assert (addEntry ctx baseUri (addTriples ctx baseUri) rootId k v st2 = Ok st2) as ->
      by (unfold addEntry; by rewrite Hat).
    done. }
  unfold parseJsonLdToStore. rewrite Hc, Hr.
  destruct (rootIdOf (JObj (pre ++ post)) baseUri) as [rootId|]; [|done].
  cbn [mbind result_bind]. by rewrite Ha.
Qed.

(** The theorem at a document with a ["@view"]. *)
Lemma keyword_entries_are_ignored_witness :
  parseJsonLdToStore (num:=Z)
    (JObj ([("@type", JStr "Person")] ++ ("@view", JStr "./pane.js") :: [("name", JStr "Ada")]))
    "http://b/" createStore
  = parseJsonLdToStore (num:=Z)
      (JObj ([("@type", JStr "Person")] ++ [("name", JStr "Ada")])) "http://b/" createStore.
Proof.
  apply keyword_entries_are_ignored; [reflexivity | discriminate..].
Defined.

(** The theorem at a context with a prefix, a term definition that is not
    a string, and a second prefix. *)
Lemma context_of_document_witness :
  buildContext (num:=Z)
    (JObj [("@context", JObj [("schema", JStr "http://schema.org/");
                              ("knows", JObj [("@type", JStr "@id")]);
                              ("foaf", JStr "http://xmlns.com/foaf/0.1/")]);
           ("schema:name", JStr "Ada")])
  = [("schema", "http://schema.org/"); ("foaf", "http://xmlns.com/foaf/0.1/")].
Proof.
  refine (proj2 (context_of_document (num:=Z)
            (JObj [("@context", JObj [("schema", JStr "http://schema.org/");
                                      ("knows", JObj [("@type", JStr "@id")]);
                                      ("foaf", JStr "http://xmlns.com/foaf/0.1/")]);
                   ("schema:name", JStr "Ada")]))
            [("schema", JStr "http://schema.org/");
             ("knows", JObj [("@type", JStr "@id")]);
             ("foaf", JStr "http://xmlns.com/foaf/0.1/")] eq_refl _).
  apply (bool_decide_unpack _). vm_compute. exact I.
Defined.

Section BlankNodes.
Context {num : Type} `{JsNumber num}.





End BlankNodes.




